(** * Verification of the file organiser (tasks/task_01.py)

    The development embeds the asynchronous file organiser of
    [tasks/task_01.py]: the path resolver [get_absolute_path], the
    destination namer [file_path_build], the directory walker
    [read_folder], the per-name lock registry [_file_name_locks], the copy
    worker [copy_file], the orchestrator [folder_copy] and the command line
    entry point [cli].

    Python values are modelled as follows.
    - [str] is [string]; the characters ["/"] and ["."] that pathlib
      inspects are ASCII, so the byte view of a UTF-8 name is faithful.
      [str.lower] is modelled on the ASCII range only.
    - [AsyncPath] is a pure POSIX path: a root and the list of its names,
      as the pathlib of CPython 3.9 to 3.13 parses it ([with_stem] exists
      from 3.9 on; 3.14 gives a name that ends with a dot the suffix
      ["."]).
    - an exception is a value of [exn]; a call that may raise returns an
      [outcome].
    - the file system seen by the copy workers is a finite map from paths
      to nodes; paths are compared as pathlib compares them (no [..] or
      link resolution); [exists] answers a boolean, and a [mkdir] or a
      [copyfile] that raises leaves the file system as it was.
    - the source tree seen by the walker is a finite tree of entries, with
      the faults a listing can raise.
    - the coroutines run by [asyncio.gather] are a transition system whose
      steps are the code between two [await]s.

    The word counter of [tasks/task_02.py] is embedded in the module
    [WordCount]. *)

From Stdlib Require Import Ascii String.
From stdpp Require Import gmap strings list pretty sorting.

#[local] Set Warnings "-register-all,-clear-no-such-hyp".

(** ** Python strings *)

Module PyStr.

(** [c in s] *)
Fixpoint contains (c : ascii) (s : string) : bool :=
  match s with
  | EmptyString => false
  | String a s' => if decide (a = c) then true else contains c s'
  end.

(** [s.rfind(c)]; [None] stands for Python's [-1]. *)
Fixpoint rfind (c : ascii) (s : string) : option nat :=
  match s with
  | EmptyString => None
  | String a s' =>
      match rfind c s' with
      | Some i => Some (S i)
      | None => if decide (a = c) then Some 0 else None
      end
  end.

(** [s[n:]] *)
Fixpoint drop (n : nat) (s : string) : string :=
  match n, s with
  | 0, _ => s
  | S n', String _ s' => drop n' s'
  | S _, EmptyString => EmptyString
  end.

(** [s[:n]] *)
Fixpoint take (n : nat) (s : string) : string :=
  match n, s with
  | 0, _ => EmptyString
  | S n', String a s' => String a (take n' s')
  | S _, EmptyString => EmptyString
  end.

(** [s.startswith(c)] for a one-character prefix *)
Definition startswith (c : ascii) (s : string) : bool :=
  match s with
  | String a _ => bool_decide (a = c)
  | EmptyString => false
  end.

(** [s.endswith(c)] for a one-character suffix *)
Fixpoint endswith (c : ascii) (s : string) : bool :=
  match s with
  | EmptyString => false
  | String a EmptyString => bool_decide (a = c)
  | String _ s' => endswith c s'
  end.

(** [s.split(c)] *)
Fixpoint split (c : ascii) (s : string) : list string :=
  match s with
  | EmptyString => [EmptyString]
  | String a s' =>
      if decide (a = c) then EmptyString :: split c s'
      else match split c s' with
           | h :: t => String a h :: t
           | [] => [String a EmptyString]
           end
  end.

(** [s.lstrip(c)] *)
Fixpoint lstrip (c : ascii) (s : string) : string :=
  match s with
  | String a s' => if decide (a = c) then lstrip c s' else s
  | EmptyString => EmptyString
  end.

(** [sep.join(l)] *)
Fixpoint join (sep : string) (l : list string) : string :=
  match l with
  | [] => EmptyString
  | [x] => x
  | x :: l' => x +:+ sep +:+ join sep l'
  end.

Definition lower_char (a : ascii) : ascii :=
  let n := nat_of_ascii a in
  if (65 <=? n)%nat && (n <=? 90)%nat then ascii_of_nat (n + 32) else a.

(** [s.lower()], on ASCII letters *)
Fixpoint lower (s : string) : string :=
  match s with
  | EmptyString => EmptyString
  | String a s' => String (lower_char a) (lower s')
  end.

(** [bool(s)]: a string is truthy when it is not empty *)
Definition truthy (s : string) : bool :=
  match s with EmptyString => false | _ => true end.

End PyStr.

(** ** Exceptions and outcomes *)

(** The part of Python's exception hierarchy the program distinguishes:
    [except OSError] (walker, copy worker) and [except Exception] (cli).
    [SystemExit] and [KeyboardInterrupt] derive from [BaseException]
    only. *)
Inductive exn : Type :=
| OSError (detail : string)
| ValueError (detail : string)
| OtherException (detail : string)
| SystemExit (code : Z)
| KeyboardInterrupt.

Definition is_OSError (e : exn) : bool :=
  match e with OSError _ => true | _ => false end.

Definition is_Exception (e : exn) : bool :=
  match e with
  | OSError _ | ValueError _ | OtherException _ => true
  | SystemExit _ | KeyboardInterrupt => false
  end.

(** [str(e)] *)
Definition exn_str (e : exn) : string :=
  match e with
  | OSError d | ValueError d | OtherException d => d
  | SystemExit c => pretty c
  | KeyboardInterrupt => EmptyString
  end.

Inductive outcome (A : Type) : Type :=
| Return (a : A)
| Raise (e : exn).
Arguments Return {A} a.
Arguments Raise {A} e.

Definition bind_outcome {A B} (o : outcome A) (k : A → outcome B) : outcome B :=
  match o with
  | Return a => k a
  | Raise e => Raise e
  end.

Definition returns {A} (o : outcome A) : bool :=
  match o with Return _ => true | Raise _ => false end.

(** ** Pure POSIX paths, after pathlib *)

Record path : Type := Path { root : string; names : list string }.

Global Instance path_eq_dec : EqDecision path.
Proof. solve_decision. Defined.

Global Instance path_countable : Countable path.
Proof.
  refine (inj_countable' (λ p, (root p, names p)) (λ t, Path t.1 t.2) _).
  by intros [].
Defined.

Module Pathlib.

(** [posixpath]'s root splitting: exactly two leading slashes are kept
    as the root ["//"], any other positive number collapses to ["/"]. *)
Definition splitroot (s : string) : string * string :=
  match s with
  | String "/" rest =>
      let stripped := PyStr.lstrip "/" rest in
      if decide (String.length s - String.length stripped = 2)
      then ("//", stripped) else ("/", stripped)
  | _ => (EmptyString, s)
  end.

(** [AsyncPath(s)]: empty and ["."] components are dropped. *)
Definition parse (s : string) : path :=
  let '(r, rel) := splitroot s in
  Path r (filter (λ x, x ≠ EmptyString ∧ x ≠ ".") (PyStr.split "/" rel)).

(** [p / q] *)
Definition join (p q : path) : path :=
  if decide (root q = EmptyString)
  then Path (root p) (names p ++ names q)
  else q.

(** [p / s] for a string operand *)
Definition join_str (p : path) (s : string) : path := join p (parse s).

Definition is_absolute (p : path) : bool :=
  bool_decide (root p ≠ EmptyString).

(** [p.name] *)
Definition name (p : path) : string := List.last (names p) EmptyString.

(** The suffix of a file name: from the last dot on, unless that dot is
    the first or the last character. *)
Definition name_suffix (n : string) : string :=
  match PyStr.rfind "." n with
  | Some i =>
      if (0 <? i)%nat && (i <? String.length n - 1)%nat
      then PyStr.drop i n else EmptyString
  | None => EmptyString
  end.

Definition name_stem (n : string) : string :=
  match PyStr.rfind "." n with
  | Some i =>
      if (0 <? i)%nat && (i <? String.length n - 1)%nat
      then PyStr.take i n else n
  | None => n
  end.

(** [p.suffix] and [p.stem] *)
Definition suffix (p : path) : string := name_suffix (name p).
Definition stem (p : path) : string := name_stem (name p).

(** [p.with_name(n)] *)
Definition with_name (p : path) (n : string) : outcome path :=
  if decide (name p = EmptyString)
  then Raise (ValueError "path has an empty name")
  else if decide (n = EmptyString ∨ PyStr.contains "/" n = true ∨ n = ".")
  then Raise (ValueError "Invalid name")
  else Return (Path (root p) (removelast (names p) ++ [n])).

(** [p.with_stem(s)] *)
Definition with_stem (p : path) (s : string) : outcome path :=
  with_name p (s +:+ suffix p).

(** [p.parent] *)
Definition parent (p : path) : path := Path (root p) (removelast (names p)).

(** [p.as_posix()] *)
Definition as_posix (p : path) : string :=
  match root p, names p with
  | EmptyString, [] => "."
  | r, l => r +:+ PyStr.join "/" l
  end.

End Pathlib.

Notation "p // q" := (Pathlib.join p q) (at level 40, left associativity).
Notation "p /: s" := (Pathlib.join_str p s) (at level 40, left associativity).

(** ** [get_absolute_path] *)

(** A value of [Union[AsyncPath, str]]. *)
Inductive path_like : Type :=
| PStr (s : string)
| PObj (p : path).

(** [AsyncPath(x)] *)
Definition to_path (x : path_like) : path :=
  match x with
  | PStr s => Pathlib.parse s
  | PObj p => p
  end.

(** [bool(x)]: path objects define neither [__bool__] nor [__len__], so
    they are always truthy. *)
Definition path_like_truthy (x : path_like) : bool :=
  match x with
  | PStr s => PyStr.truthy s
  | PObj _ => true
  end.

(** [cwd] is the value [AsyncPath.cwd()] returns. *)
Definition get_absolute_path (cwd : path) (p : path_like)
    (current_dir : option path_like) : outcome path :=
  if negb (path_like_truthy p) then
    Raise (ValueError "The path can not be empty")
  else if Pathlib.is_absolute (to_path p) then
    Return (to_path p)
  else
    let current_dir :=
      match current_dir with
      | Some (PStr s) => Some (PObj (Pathlib.parse s))
      | other => other
      end in
    Return (match current_dir with
            | Some d => to_path d
            | None => cwd
            end // to_path p).

(** ** The file system seen by the namer and the copy workers *)

Inductive fs_node : Type :=
| File (data : string)
| Dir.

Global Instance fs_node_eq_dec : EqDecision fs_node.
Proof. solve_decision. Defined.

Abbreviation filesystem := (gmap path fs_node).

(** [await p.exists()] *)
Definition path_exists (fs : filesystem) (p : path) : bool :=
  bool_decide (is_Some (fs !! p)).

Definition is_file_at (fs : filesystem) (p : path) : bool :=
  match fs !! p with Some (File _) => true | _ => false end.

(** The directories [p.mkdir(parents=True, exist_ok=True)] makes sure of:
    [p] and its ancestors below the root. *)
Definition dirs_upto (p : path) : list path :=
  (λ k, Path (root p) (take k (names p))) <$> seq 1 (length (names p)).

(** [await p.mkdir(parents=True, exist_ok=True)]; [None] when the call
    must raise because a file is in the way. *)
Definition mkdir_parents (fs : filesystem) (p : path) : option filesystem :=
  if existsb (is_file_at fs) (dirs_upto p) then None
  else Some (foldr (λ q m, <[q := Dir]> m) fs (dirs_upto p)).

(** [await copyfile(src, dst)]; [None] when the call must raise: the
    source is not a readable file, the destination is a directory, or
    both are the same file. *)
Definition copyfile (fs : filesystem) (src dst : path) : option filesystem :=
  match fs !! src with
  | Some (File data) =>
      if decide (src = dst) then None
      else match fs !! dst with
           | Some Dir => None
           | _ => Some (<[dst := File data]> fs)
           end
  | _ => None
  end.

(** ** [file_path_build] *)

(** Line 55. *)
Definition file_extension (file : path) : string :=
  if PyStr.startswith "." (Pathlib.suffix file)
  then PyStr.drop 1 (Pathlib.suffix file)
  else Pathlib.suffix file.

(** Lines 55 to 57: the first value of [new_file_name]. *)
Definition initial_candidate (file dest : path) : path :=
  let file_extension := file_extension file in
  let file_name := Pathlib.stem file in
  dest /: (if PyStr.truthy file_extension then file_extension
           else "without_extension")
       /: (file_name +:+ "." +:+ file_extension).

(** The f-string of line 64. *)
Definition indexed_stem (file_name : string) (rename_tries : nat) : string :=
  file_name +:+ " (" +:+ pretty rename_tries +:+ ")".

(** Lines 62 to 64: one turn of the loop body. *)
Definition next_candidate (file_name : string) (new_file_name : path)
    (rename_tries : nat) : outcome path :=
  Pathlib.with_stem new_file_name (indexed_stem file_name (S rename_tries)).

(** Lines 61 to 66. The loop is bounded by [fuel]; [None] means the fuel
    ran out before the loop ended. *)
Fixpoint probe_loop (fuel : nat) (fs : filesystem) (file_name : string)
    (new_file_name : path) (rename_tries : nat) : option (outcome path) :=
  match fuel with
  | 0 => None
  | S fuel' =>
      if path_exists fs new_file_name then
        match next_candidate file_name new_file_name rename_tries with
        | Return p => probe_loop fuel' fs file_name p (S rename_tries)
        | Raise e => Some (Raise e)
        end
      else Some (Return new_file_name)
  end.

Definition file_path_build (fuel : nat) (fs : filesystem) (file dest : path)
    : option (outcome path) :=
  probe_loop fuel fs (Pathlib.stem file) (initial_candidate file dest) 0.

(** The sequence of values [new_file_name] takes, whatever the file
    system holds: the initial candidate, then one [with_stem] per turn. *)
Fixpoint candidate (file dest : path) (k : nat) : outcome path :=
  match k with
  | 0 => Return (initial_candidate file dest)
  | S k' =>
      bind_outcome (candidate file dest k')
        (λ p, next_candidate (Pathlib.stem file) p k')
  end.

(** ** Logging *)

Inductive level : Type := INFO | WARNING | ERROR.

Global Instance level_eq_dec : EqDecision level.
Proof. solve_decision. Defined.

Abbreviation log := (list (level * string)).

Definition dquote : string := String "034"%char EmptyString.

(** ** [read_folder] *)

(** What the walker can meet under the source folder. A directory lists
    [entries] in the order [iterdir] yields them; when [fault] is [Some e]
    the iteration raises [e] after them (from the listing itself or from
    the classification of the next child, which is then never seen). *)
Inductive node : Type :=
| Regular (data : string)
| Directory (entries : list (string * node)) (fault : option exn)
| Symlink (target : option node)
| Special.

(** [await child.is_dir()] and [await child.is_file()] stat the target of
    a link; a dangling link is neither. *)
Fixpoint is_dir (n : node) : bool :=
  match n with
  | Directory _ _ => true
  | Symlink (Some t) => is_dir t
  | _ => false
  end.

Fixpoint is_file (n : node) : bool :=
  match n with
  | Regular _ => true
  | Symlink (Some t) => is_file t
  | _ => false
  end.

(** A [return] inside [finally] discards the exception in flight. *)
Definition finally_return {A} (pending : option exn) (value : A) : outcome A :=
  Return value.

(** Lines 70 to 86 around the loop: [body] runs the [async for] on the
    local list [files] and reports the exception that ended it, if any. *)
Definition read_folder_frame (source_folder : path)
    (body : list path → log → list path * log * option exn) (lg : log)
    : log * outcome (list path) :=
  let lg := lg ++ [(INFO, "Process folder: " +:+ Pathlib.as_posix source_folder)] in
  let files : list path := [] in
  let '(files, lg, pending) := body files lg in
  let '(lg, pending) :=
    match pending with
    | Some e =>
        if is_OSError e then
          (lg ++ [(INFO, "Failed to process folder " +:+ dquote
                          +:+ Pathlib.as_posix source_folder +:+ dquote
                          +:+ ": " +:+ exn_str e)], None)
        else (lg, Some e)
    | None => (lg, None)
    end in
  (lg, finally_return pending files).

(** Lines 75 to 82: the loop over [source_folder.iterdir()]. Listing
    something that is not a directory raises an [OSError]. *)
Fixpoint scan (source_folder : path) (n : node) (files : list path) (lg : log)
    {struct n} : list path * log * option exn :=
  match n with
  | Directory entries fault =>
      (fix loop (es : list (string * node)) (files : list path) (lg : log)
         : list path * log * option exn :=
         match es with
         | [] => (files, lg, fault)
         | (nm, child_node) :: es' =>
             let child := source_folder /: nm in
             if is_dir child_node then
               match read_folder_frame child (scan child child_node) lg with
               | (lg', Return found) => loop es' (files ++ found) lg'
               | (lg', Raise e) => (files, lg', Some e)
               end
             else if is_file child_node then
               loop es' (files ++ [child]) lg
             else
               loop es' files
                 (lg ++ [(WARNING, "Skip non-regular: " +:+ Pathlib.as_posix child)])
         end) entries files lg
  | Symlink (Some target) => scan source_folder target files lg
  | Symlink None => (files, lg, Some (OSError "No such file or directory"))
  | Regular _ | Special => (files, lg, Some (OSError "Not a directory"))
  end.

Definition read_folder (source_folder : path) (n : node) (lg : log)
    : log * outcome (list path) :=
  read_folder_frame source_folder (scan source_folder n) lg.

(** ** [_file_name_locks] *)

(** A lock object is identified by its allocation number; [next_lock]
    counts the locks the factory [asyncio.Lock] has created. *)
Record registry : Type := Registry { locks : gmap string nat; next_lock : nat }.

Definition empty_registry : registry := Registry ∅ 0.

(** [_file_name_locks[key]] on a [defaultdict(asyncio.Lock)] *)
Definition lock_for (r : registry) (key : string) : nat * registry :=
  match locks r !! key with
  | Some l => (l, r)
  | None => (next_lock r, Registry (<[key := next_lock r]> (locks r)) (S (next_lock r)))
  end.

(** The registry after the lookups of [keys], oldest first. *)
Definition lookups (keys : list string) : registry :=
  foldl (λ r k, (lock_for r k).2) empty_registry keys.

(** ** [copy_file] under [asyncio.gather] *)

(** Where a [copy_file] coroutine stands. Between two of these points the
    coroutine runs without interruption; at each of them it is suspended
    in an [await] and any other coroutine may run. *)
Inductive pc : Type :=
| Start
    (** created by [gather], line 90 not yet run *)
| Acquiring (lock : nat)
    (** waiting in [async with lock] for a lock that was taken *)
| Probing (lock : nat) (new_file_name : path) (rename_tries : nat)
    (** in [file_path_build], about to run [await new_file_name.exists()] *)
| MakingDir (lock : nat) (new_file : path)
    (** about to run [await new_file.parent.mkdir(...)] *)
| Copying (lock : nat) (new_file : path)
    (** about to run [await copyfile(file, new_file)] *)
| Done (copied : option path)
    (** returned: after the copy to [copied], or after logging an
        [OSError] when [copied] is [None] (the coroutine itself returns
        nothing; the field records which way it went) *)
| Raised (e : exn).
    (** left [copy_file] with an exception *)

(** One call [copy_file(file, folder)]. *)
Record worker : Type := Worker { file : path; folder : path; at_ : pc }.

Record system : Type := System {
  fsys : gmap path fs_node;   (** the file system *)
  reg : registry;             (** [_file_name_locks] *)
  held : gset nat;            (** the locks that are locked *)
  logged : list (level * string);
  tasks : list worker         (** the coroutines passed to [gather] *)
}.

(** What the operating system answers to a [mkdir] or a [copyfile]. *)
Inductive io : Type :=
| Succeeds
| Fails (e : exn).

(** Line 90: the key of the lock a file waits for. *)
Definition lock_key (file : path) : string := PyStr.lower (Pathlib.name file).

Definition move (s : system) (i : nat) (w : worker) (p : pc) : list worker :=
  <[i := Worker (file w) (folder w) p]> (tasks s).

(** Entering the body of [async with lock]: [file_path_build] runs up to
    its first [await]. *)
Definition enter (s : system) (i : nat) (w : worker) (r : registry) (l : nat)
    : system :=
  System (fsys s) r ({[l]} ∪ held s) (logged s)
    (move s i w (Probing l (initial_candidate (file w) (folder w)) 0)).

(** Lines 94 to 101 when the awaited call raised [e]: an [OSError] is
    logged and the coroutine returns, anything else leaves [copy_file];
    the lock is released either way. *)
Definition failed (s : system) (i : nat) (w : worker) (l : nat)
    (new_file : path) (e : exn) : system :=
  if is_OSError e then
    System (fsys s) (reg s) (held s ∖ {[l]})
      (logged s ++ [(ERROR, "Failed to copy file " +:+ dquote
                     +:+ Pathlib.as_posix (file w) +:+ dquote +:+ " to "
                     +:+ dquote +:+ Pathlib.as_posix new_file +:+ dquote
                     +:+ ": " +:+ exn_str e)])
      (move s i w (Done None))
  else
    System (fsys s) (reg s) (held s ∖ {[l]}) (logged s) (move s i w (Raised e)).

(** Coroutine [i] runs from the point it stands at to its next [await];
    [o] is the answer of the operating system to the call it was
    suspended in. [None]: the coroutine cannot run (it is blocked or
    finished) or the answer [o] is impossible in this file system. *)
Definition step (s : system) (i : nat) (o : io) : option system :=
  match tasks s !! i with
  | None => None
  | Some w =>
      match at_ w with
      | Start =>
          let '(l, r) := lock_for (reg s) (lock_key (file w)) in
          if decide (l ∈ held s) then
            Some (System (fsys s) r (held s) (logged s) (move s i w (Acquiring l)))
          else Some (enter s i w r l)
      | Acquiring l =>
          if decide (l ∈ held s) then None else Some (enter s i w (reg s) l)
      | Probing l new_file_name rename_tries =>
          if path_exists (fsys s) new_file_name then
            match next_candidate (Pathlib.stem (file w)) new_file_name rename_tries with
            | Return p =>
                Some (System (fsys s) (reg s) (held s) (logged s)
                        (move s i w (Probing l p (S rename_tries))))
            | Raise e =>
                Some (System (fsys s) (reg s) (held s ∖ {[l]}) (logged s)
                        (move s i w (Raised e)))
            end
          else
            Some (System (fsys s) (reg s) (held s) (logged s)
                    (move s i w (MakingDir l new_file_name)))
      | MakingDir l new_file =>
          match o with
          | Succeeds =>
              match mkdir_parents (fsys s) (Pathlib.parent new_file) with
              | Some fs' =>
                  Some (System fs' (reg s) (held s) (logged s)
                          (move s i w (Copying l new_file)))
              | None => None
              end
          | Fails e => Some (failed s i w l new_file e)
          end
      | Copying l new_file =>
          match o with
          | Succeeds =>
              match copyfile (fsys s) (file w) new_file with
              | Some fs' =>
                  Some (System fs' (reg s) (held s ∖ {[l]})
                          (logged s ++ [(INFO, "File: " +:+ Pathlib.as_posix (file w)
                                          +:+ " copied to "
                                          +:+ Pathlib.as_posix new_file)])
                          (move s i w (Done (Some new_file))))
              | None => None
              end
          | Fails e => Some (failed s i w l new_file e)
          end
      | Done _ | Raised _ => None
      end
  end.

(** A schedule names, turn by turn, the coroutine the event loop resumes
    and the answer it resumes it with. *)
Fixpoint run (s : system) (schedule : list (nat * io)) : option system :=
  match schedule with
  | [] => Some s
  | (i, o) :: rest =>
      match step s i o with
      | Some s' => run s' rest
      | None => None
      end
  end.

Definition finished (w : worker) : bool :=
  match at_ w with Done _ | Raised _ => true | _ => false end.

Fixpoint first_raised (ws : list worker) : option exn :=
  match ws with
  | [] => None
  | w :: ws' =>
      match at_ w with
      | Raised e => Some e
      | _ => first_raised ws'
      end
  end.

(** What [await asyncio.gather(...)] gives in state [s]: the exception of
    a coroutine that raised, the return once all have returned, and
    [None] while it is still waiting. *)
Definition gather (s : system) : option (outcome unit) :=
  match first_raised (tasks s) with
  | Some e => Some (Raise e)
  | None => if forallb finished (tasks s) then Some (Return tt) else None
  end.

(** Line 117: one coroutine per file, all for the same folder; the
    registry and the log are those of the process. *)
Definition spawn (fs : filesystem) (r : registry) (lg : log)
    (files : list path) (dest_folder : path) : system :=
  System fs r ∅ lg ((λ f, Worker f dest_folder Start) <$> files).

(** Lines 113 to 117 up to the call of [gather]: [tree] is what the
    walker finds at the source folder. *)
Definition folder_copy_launch (cwd : path) (tree : node) (fs : filesystem)
    (r : registry) (lg : log) (source dest : string) : log * outcome system :=
  match get_absolute_path cwd (PStr source) None with
  | Raise e => (lg, Raise e)
  | Return source_folder =>
      match get_absolute_path cwd (PStr dest) None with
      | Raise e => (lg, Raise e)
      | Return dest_folder =>
          match read_folder source_folder tree lg with
          | (lg', Return files) => (lg', Return (spawn fs r lg' files dest_folder))
          | (lg', Raise e) => (lg', Raise e)
          end
      end
  end.

(** ** [cli] *)

Record arguments : Type := Arguments_ { source : string; output : string }.

(** [parser.parse_args()] for the parser of lines 128 to 132, on option
    strings spelled in full and followed by their value: a usage error
    ends the process with [SystemExit(2)], the help option with
    [SystemExit(0)]. *)
Fixpoint parse_args (argv : list string) (src : option string) (out : string)
    : outcome arguments :=
  match argv with
  | [] =>
      match src with
      | Some s => Return (Arguments_ s out)
      | None => Raise (SystemExit 2)
      end
  | opt :: rest =>
      if decide (opt = "-h" ∨ opt = "--help") then Raise (SystemExit 0)
      else if decide (opt = "-s" ∨ opt = "--source") then
        match rest with
        | v :: rest' => parse_args rest' (Some v) out
        | [] => Raise (SystemExit 2)
        end
      else if decide (opt = "-o" ∨ opt = "--output") then
        match rest with
        | v :: rest' => parse_args rest' src v
        | [] => Raise (SystemExit 2)
        end
      else Raise (SystemExit 2)
  end.

(** The status the interpreter ends with when [e] is not caught. *)
Definition exit_status (e : exn) : Z :=
  match e with
  | SystemExit code => code
  | KeyboardInterrupt => 130
  | _ => 1
  end.

(** Lines 120 to 142. [copying a lg] stands for
    [asyncio.run(folder_copy(a.source, a.output))]: the log it leaves and
    how it ends; [elapsed] is the formatted running time. The result is
    the log and the exception [cli] ends with ([exit(0)] raises
    [SystemExit(0)]). *)
Definition cli (argv : list string)
    (copying : arguments → log → log * outcome unit) (elapsed : string)
    (lg : log) : log * exn :=
  let '(lg, body) :=
    match parse_args argv None "dist" with
    | Raise e => (lg, Raise e)
    | Return a =>
        match copying a lg with
        | (lg', Return _) =>
            (lg' ++ [(INFO, "File copying completed (execution time: "
                             +:+ elapsed +:+ " seconds)")], Return tt)
        | (lg', Raise e) => (lg', Raise e)
        end
    end in
  match body with
  | Return _ => (lg, SystemExit 0)
  | Raise e =>
      if is_Exception e then (lg ++ [(ERROR, exn_str e)], SystemExit 0)
      else (lg, e)
  end.

(** The exit code of the process. *)
Definition exit_code (argv : list string)
    (copying : arguments → log → log * outcome unit) (elapsed : string)
    (lg : log) : Z :=
  exit_status (cli argv copying elapsed lg).2.

(** ** Vocabulary of the statements *)

(** A file name as a directory listing yields it: not empty and free of
    the separator. *)
Definition valid_name (n : string) : Prop :=
  n ≠ EmptyString ∧ PyStr.contains "/" n = false.

(** The folder a file is sorted into: its extension without the dot, or
    [without_extension]. *)
Definition category (file : path) : string :=
  let ext := PyStr.drop 1 (Pathlib.suffix file) in
  if decide (ext = EmptyString) then "without_extension" else ext.

(** The name the namer is meant to try at turn [k]: the name built from
    stem and extension first, then the original stem with the counter in
    parentheses, in front of the original suffix. *)
Definition counter_name (file : path) (k : nat) : string :=
  match k with
  | 0 => Pathlib.stem file +:+ "." +:+ PyStr.drop 1 (Pathlib.suffix file)
  | S _ => indexed_stem (Pathlib.stem file) k +:+ Pathlib.suffix file
  end.

Definition counter_path (file dest : path) (k : nat) : path :=
  Path (root dest) (names dest ++ [category file; counter_name file k]).

(** Every stored lock was allocated, and no lock is stored under two
    keys. *)
Definition registry_ok (r : registry) : Prop :=
  (∀ k l, locks r !! k = Some l → l < next_lock r) ∧
  (∀ k k' l, locks r !! k = Some l → locks r !! k' = Some l → k = k').

(** The lock a coroutine holds, inside [async with lock]. *)
Definition lock_of (p : pc) : option nat :=
  match p with
  | Probing l _ _ | MakingDir l _ | Copying l _ => Some l
  | _ => None
  end.

(** The lock a coroutine has looked up, held or not. *)
Definition lock_known (p : pc) : option nat :=
  match p with
  | Acquiring l | Probing l _ _ | MakingDir l _ | Copying l _ => Some l
  | _ => None
  end.

(** The destination a coroutine has settled on: chosen by
    [file_path_build], or already copied to. *)
Definition dest_of (p : pc) : option path :=
  match p with
  | MakingDir _ c | Copying _ c | Done (Some c) => Some c
  | _ => None
  end.

Definition copied (w : worker) : bool :=
  match at_ w with Done (Some _) => true | _ => false end.

(** The steps of a coroutine, case by case: from the point [at_ w], with
    answer [o], coroutine [w] reaches the point [p] and leaves the file
    system, the registry and the set of locked locks as given. *)
Inductive transition (s : system) (w : worker) (o : io)
  : pc → gmap path fs_node → registry → gset nat → Prop :=
| t_wait l r :
    at_ w = Start → lock_for (reg s) (lock_key (file w)) = (l, r) → l ∈ held s →
    transition s w o (Acquiring l) (fsys s) r (held s)
| t_lock l r :
    at_ w = Start → lock_for (reg s) (lock_key (file w)) = (l, r) → l ∉ held s →
    transition s w o (Probing l (initial_candidate (file w) (folder w)) 0)
      (fsys s) r ({[l]} ∪ held s)
| t_wake l :
    at_ w = Acquiring l → l ∉ held s →
    transition s w o (Probing l (initial_candidate (file w) (folder w)) 0)
      (fsys s) (reg s) ({[l]} ∪ held s)
| t_next l c k c' :
    at_ w = Probing l c k → path_exists (fsys s) c = true →
    next_candidate (Pathlib.stem (file w)) c k = Return c' →
    transition s w o (Probing l c' (S k)) (fsys s) (reg s) (held s)
| t_name_error l c k e :
    at_ w = Probing l c k → path_exists (fsys s) c = true →
    next_candidate (Pathlib.stem (file w)) c k = Raise e →
    transition s w o (Raised e) (fsys s) (reg s) (held s ∖ {[l]})
| t_free l c k :
    at_ w = Probing l c k → path_exists (fsys s) c = false →
    transition s w o (MakingDir l c) (fsys s) (reg s) (held s)
| t_mkdir l c fs' :
    at_ w = MakingDir l c → o = Succeeds →
    mkdir_parents (fsys s) (Pathlib.parent c) = Some fs' →
    transition s w o (Copying l c) fs' (reg s) (held s)
| t_copy l c fs' :
    at_ w = Copying l c → o = Succeeds →
    copyfile (fsys s) (file w) c = Some fs' →
    transition s w o (Done (Some c)) fs' (reg s) (held s ∖ {[l]})
| t_fail l c e :
    at_ w = MakingDir l c ∨ at_ w = Copying l c → o = Fails e →
    transition s w o (if is_OSError e then Done None else Raised e)
      (fsys s) (reg s) (held s ∖ {[l]}).

(** The message of line 101. *)
Definition copy_error_message (src dst : path) (e : exn) : string :=
  "Failed to copy file " +:+ dquote +:+ Pathlib.as_posix src +:+ dquote
  +:+ " to " +:+ dquote +:+ Pathlib.as_posix dst +:+ dquote
  +:+ ": " +:+ exn_str e.

(** Two destinations that differ only by the counter on the stem: same
    folder, same suffix, and stems that are one base stem, bare or with a
    counter. *)
Definition differ_by_counter (p q : path) : Prop :=
  Pathlib.parent p = Pathlib.parent q ∧
  Pathlib.suffix p = Pathlib.suffix q ∧
  ∃ base,
    (Pathlib.stem p = base ∨ ∃ n, Pathlib.stem p = indexed_stem base n) ∧
    (Pathlib.stem q = base ∨ ∃ n, Pathlib.stem q = indexed_stem base n).

(** What holds of the locks in every state a schedule can reach: the
    registry is sound, a coroutine knows the lock stored under its key,
    a lock inside [async with] is locked, no two coroutines are inside
    [async with] on one lock, and every locked lock has its holder. *)
Definition locks_ok (s : system) : Prop :=
  registry_ok (reg s) ∧
  (∀ i w l, tasks s !! i = Some w → lock_known (at_ w) = Some l →
     locks (reg s) !! lock_key (file w) = Some l) ∧
  (∀ i w l, tasks s !! i = Some w → lock_of (at_ w) = Some l → l ∈ held s) ∧
  (∀ i j wi wj l, tasks s !! i = Some wi → tasks s !! j = Some wj →
     lock_of (at_ wi) = Some l → lock_of (at_ wj) = Some l → i = j) ∧
  (∀ l, l ∈ held s → ∃ i w, tasks s !! i = Some w ∧ lock_of (at_ w) = Some l).

(** What holds of the destinations in every reached state: a
    destination copied to exists, and two coroutines with the same key
    never settle on the same destination. *)
Definition dests_ok (s : system) : Prop :=
  (∀ i w c, tasks s !! i = Some w → at_ w = Done (Some c) →
     is_Some (fsys s !! c)) ∧
  (∀ i j wi wj c, tasks s !! i = Some wi → tasks s !! j = Some wj →
     lock_key (file wi) = lock_key (file wj) →
     dest_of (at_ wi) = Some c → dest_of (at_ wj) = Some c → i = j).

(** Every path a coroutine tries or settles on is one of the values
    [new_file_name] takes for its file. *)
Definition candidates_ok (s : system) : Prop :=
  ∀ i w, tasks s !! i = Some w →
    match at_ w with
    | Probing _ c k => candidate (file w) (folder w) k = Return c
    | p => ∀ c, dest_of p = Some c → ∃ k, candidate (file w) (folder w) k = Return c
    end.

(** A run in which every file is bound for its counter path [n]: the
    paths with a smaller counter exist in the initial file system [fs0],
    the paths with counter [n] are free and pairwise distinct, and the
    sources can be read. *)
Definition bound_for (fs0 : gmap path fs_node) (files : list path)
    (dest : path) (n : nat) : Prop :=
  n ≤ 1 ∧
  (∀ f, f ∈ files → valid_name (Pathlib.name f)) ∧
  (∀ f k, f ∈ files → k < n → is_Some (fs0 !! counter_path f dest k)) ∧
  (∀ f, f ∈ files → fs0 !! counter_path f dest n = None) ∧
  NoDup ((λ f, counter_path f dest n) <$> files) ∧
  (∀ f, f ∈ files → ∃ data, fs0 !! f = Some (File data)).

(** What then holds in every reached state: each coroutine probes the
    counter paths up to [n] and settles on the one with counter [n],
    which holds the data of the source once copied and is free before;
    nothing that existed has changed; and what is new is a folder above
    the destinations or a destination. *)
Definition targets_ok (fs0 : gmap path fs_node) (files : list path)
    (dest : path) (n : nat) (s : system) : Prop :=
  (∀ i w, tasks s !! i = Some w → files !! i = Some (file w) ∧ folder w = dest) ∧
  (∀ i w, tasks s !! i = Some w →
     match at_ w with
     | Probing _ c k => k ≤ n ∧ c = counter_path (file w) dest k
     | MakingDir _ c | Copying _ c => c = counter_path (file w) dest n
     | Done (Some c) =>
         c = counter_path (file w) dest n ∧
         ∃ data, fs0 !! file w = Some (File data) ∧ fsys s !! c = Some (File data)
     | _ => True
     end) ∧
  (∀ i w, tasks s !! i = Some w → copied w = false →
     fsys s !! counter_path (file w) dest n = None) ∧
  (∀ p x, fs0 !! p = Some x → fsys s !! p = Some x) ∧
  (∀ p, fs0 !! p = None → is_Some (fsys s !! p) →
     length (names p) ≤ length (names dest) + 1 ∨
     ∃ f, f ∈ files ∧ p = counter_path f dest n).

(** The regular files reachable by recursive descent, as the
    specification words the walk: a directory child is descended into, a
    regular file is recorded, anything else contributes nothing; only the
    entries listed before a fault are seen. *)
Fixpoint regular_files (folder : path) (n : node) : list path :=
  match n with
  | Directory entries _ =>
      (fix descend (es : list (string * node)) : list path :=
         match es with
         | [] => []
         | (nm, child) :: es' =>
             match child with
             | Regular _ => [folder /: nm]
             | Directory _ _ => regular_files (folder /: nm) child
             | _ => []
             end ++ descend es'
         end) entries
  | _ => []
  end.

(** A tree without symbolic links. *)
Fixpoint link_free (n : node) : bool :=
  match n with
  | Directory entries _ =>
      (fix all (es : list (string * node)) : bool :=
         match es with
         | [] => true
         | (_, child) :: es' => link_free child && all es'
         end) entries
  | Symlink _ => false
  | _ => true
  end.

(** The entries a coroutine can have added to the file system by the
    point it stands at: the folders made by [mkdir], then the copy. *)
Definition spent (dest : path) (p : pc) : nat :=
  match p with
  | Copying _ _ => length (names dest) + 1
  | Done _ | Raised _ => length (names dest) + 2
  | _ => 0
  end.

(** The steps a coroutine has left at most, when no more than [probes]
    paths can ever exist. *)
Definition budget (probes : nat) (p : pc) : nat :=
  match p with
  | Start => probes + 5
  | Acquiring _ => probes + 4
  | Probing _ _ k => (probes - k) + 3
  | MakingDir _ _ => 2
  | Copying _ _ => 1
  | Done _ | Raised _ => 0
  end.

Definition remaining (probes : nat) (s : system) : nat :=
  sum_list_with (λ w, budget probes (at_ w)) (tasks s).

(** The size the file system cannot exceed during a run. *)
Definition capacity (fs0 : gmap path fs_node) (files : list path) (dest : path) : nat :=
  size fs0 + length files * (length (names dest) + 2).

(** What bounds a run: the coroutines are those of [files], a coroutine
    that probes counter [k] has found the paths of all smaller counters,
    and the file system has grown by no more than what the coroutines
    have spent. *)
Definition bounded_ok (fs0 : gmap path fs_node) (files : list path)
    (dest : path) (s : system) : Prop :=
  (∀ i w, tasks s !! i = Some w → file w ∈ files ∧ folder w = dest) ∧
  length (tasks s) = length files ∧
  (∀ i w, tasks s !! i = Some w →
     match at_ w with
     | Probing _ c k =>
         c = counter_path (file w) dest k ∧
         ∀ k', k' < k → is_Some (fsys s !! counter_path (file w) dest k')
     | MakingDir _ c | Copying _ c => ∃ k, c = counter_path (file w) dest k
     | _ => True
     end) ∧
  size (fsys s) ≤ size fs0 + sum_list_with (λ w, spent dest (at_ w)) (tasks s).

(** The lock the [i]-th lookup of a history returns. *)
Definition lock_at (keys : list string) (i : nat) : option nat :=
  k ← keys !! i; Some (lock_for (lookups (take i keys)) k).1.

(** * The word counter (tasks/task_02.py)

    A text is a [string] whose characters are the code points below 256;
    a [dict] is the list of its items in insertion order; an [int] is an
    integer of [Z]. [ThreadPoolExecutor.map] applies a pure function and
    gives the results in the order of its input, so it is the map of
    lists. The figure is what the calls of [matplotlib] were given. *)

Module WordCount.

(** [string.punctuation] *)
Definition punctuation : string :=
  "!" +:+ dquote +:+ "#$%&'()*+,-./:;<=>?@[\]^_`{|}~".

(** [text.translate(str.maketrans(empty, empty, deleted))]: the
    characters of [deleted] are mapped to [None], so they are dropped. *)
Fixpoint translate_delete (deleted : string) (text : string) : string :=
  match text with
  | EmptyString => EmptyString
  | String c rest =>
      if PyStr.contains c deleted then translate_delete deleted rest
      else String c (translate_delete deleted rest)
  end.

(** Line 40. *)
Definition remove_punctuation (text : string) : string :=
  translate_delete punctuation text.

(** [c.isspace()] for a code point below 256 *)
Definition isspace (c : ascii) : bool :=
  let n := nat_of_ascii c in
  (9 <=? n) && (n <=? 13) || (28 <=? n) && (n <=? 32) || (n =? 133) || (n =? 160).

(** [text.split()]: the scan cuts at every run of whitespace; [word] is
    the slice read since the last cut. *)
Fixpoint split_from (word : string) (text : string) : list string :=
  match text with
  | EmptyString => if decide (word = EmptyString) then [] else [word]
  | String c rest =>
      if isspace c then
        if decide (word = EmptyString) then split_from EmptyString rest
        else word :: split_from EmptyString rest
      else split_from (word +:+ String c EmptyString) rest
  end.

Definition split (text : string) : list string := split_from EmptyString text.

(** Line 50. *)
Definition map_function (word : string) : string * Z := (word, 1%Z).

(** [d.get(key)] on the items of a dict *)
Fixpoint dict_get {V} (d : list (string * V)) (key : string) : option V :=
  match d with
  | [] => None
  | (k, v) :: d' => if decide (k = key) then Some v else dict_get d' key
  end.

(** [d[key] = value]: a key already there keeps its place. *)
Fixpoint dict_set {V} (d : list (string * V)) (key : string) (value : V)
    : list (string * V) :=
  match d with
  | [] => [(key, value)]
  | (k, v) :: d' =>
      if decide (k = key) then (k, value) :: d'
      else (k, v) :: dict_set d' key value
  end.

(** [dict(items)] *)
Definition dict {V} (items : list (string * V)) : list (string * V) :=
  foldl (λ d kv, dict_set d kv.1 kv.2) [] items.

(** Line 61 on a [defaultdict(list)]: a missing key is first given the
    empty list. *)
Definition append_value (shuffled : list (string * list Z)) (key : string)
    (value : Z) : list (string * list Z) :=
  match dict_get shuffled key with
  | Some values => dict_set shuffled key (values ++ [value])
  | None => dict_set shuffled key ([] ++ [value])
  end.

(** Lines 59 to 62. *)
Definition shuffle_function (mapped_values : list (string * Z))
    : list (string * list Z) :=
  foldl (λ shuffled kv, append_value shuffled kv.1 kv.2) [] mapped_values.

(** [sum(values)] *)
Definition sum (values : list Z) : Z := foldl Z.add 0%Z values.

(** Lines 72 and 73. *)
Definition reduce_function (key_values : string * list Z) : string * Z :=
  let '(key, values) := key_values in (key, sum values).

(** Lines 86 to 104; [None] and the empty list are both false at line
    90. *)
Definition map_reduce (text : string) (search_words : option (list string))
    : list (string * Z) :=
  let text := remove_punctuation text in
  let words := split text in
  let words :=
    match search_words with
    | Some (w :: ws) => filter (λ word, word ∈ w :: ws) words
    | _ => words
    end in
  let mapped_values := map_function <$> words in
  let shuffled_values := shuffle_function mapped_values in
  let reduced_values := reduce_function <$> shuffled_values in
  dict reduced_values.

(** [sorted(items, key=itemgetter(1), reverse=True)]: the sort is stable,
    items with the same count keep their order. *)
Fixpoint insert_by_count (x : string * Z) (l : list (string * Z))
    : list (string * Z) :=
  match l with
  | [] => [x]
  | y :: l' =>
      if (x.2 <? y.2)%Z then y :: insert_by_count x l' else x :: y :: l'
  end.

Definition sorted_by_count (items : list (string * Z)) : list (string * Z) :=
  foldr insert_by_count [] items.

(** [Counter(result).most_common(n)] for an integer [n]:
    [heapq.nlargest(n, items, key=itemgetter(1))], which is the first [n]
    items of the sort, none for [n <= 0]. *)
Definition most_common (result : list (string * Z)) (n : Z) : list (string * Z) :=
  take (Z.to_nat n) (sorted_by_count result).

Record figure : Type := Figure {
  figsize : Z * Z;
  bar_labels : list string;
  bar_widths : list Z;
  color : string;
  y_inverted : bool;
  title : string;
  xlabel : string;
  ylabel : string
}.

(** Lines 115 to 125. The [zip] of line 116 yields nothing when there
    is no item, and the unpacking raises. *)
Definition visualize_top_words (result : list (string * Z)) (top_number : Z)
    : outcome figure :=
  let top_words := most_common result top_number in
  match top_words with
  | [] => Raise (ValueError "not enough values to unpack (expected 2, got 0)")
  | _ :: _ =>
      let words := top_words.*1 in
      let counts := top_words.*2 in
      Return (Figure (10, 6)%Z words counts "skyblue" true
                ("Top " +:+ pretty top_number +:+ " Most Frequent Words")
                "Frequency" "Words")
  end.

(** What [requests.get(url)] does: it answers, or raises a
    [requests.RequestException], or raises something else. *)
Inductive fetched : Type :=
| Response (status_code : Z) (text : string)
| RequestException (detail : string)
| Failure (e : exn).

(** Lines 25 to 30; [raise_for_status] raises an [HTTPError], which is a
    [RequestException], for the codes 400 to 599. *)
Definition get_text (get : string → fetched) (url : string)
    : outcome (option string) :=
  match get url with
  | Response status_code text =>
      if bool_decide (400 ≤ status_code < 600)%Z then Return None
      else Return (Some text)
  | RequestException _ => Return None
  | Failure e => Raise e
  end.

(** [parser.parse_args()] for the parser of lines 130 to 139, on option
    strings spelled in full and followed by their value. *)
Fixpoint parse_args (argv : list string) (url : string) : outcome string :=
  match argv with
  | [] => Return url
  | opt :: rest =>
      if decide (opt = "-h" ∨ opt = "--help") then Raise (SystemExit 0)
      else if decide (opt = "-l" ∨ opt = "--url") then
        match rest with
        | v :: rest' => parse_args rest' v
        | [] => Raise (SystemExit 2)
        end
      else Raise (SystemExit 2)
  end.

(** Lines 128 to 152: the lines printed, the figure shown if any, and the
    exception [cli] ends with. *)
Definition cli (argv : list string) (get : string → fetched)
    : list string * option figure * exn :=
  let body : list string * option figure * outcome unit :=
    match parse_args argv "https://gutenberg.net.au/ebooks01/0100021.txt" with
    | Raise e => ([], None, Raise e)
    | Return url =>
        match get_text get url with
        | Raise e => ([], None, Raise e)
        | Return (Some (String c rest)) =>
            let result := map_reduce (String c rest) None in
            match visualize_top_words result 10 with
            | Return fig => ([], Some fig, Return tt)
            | Raise e => ([], None, Raise e)
            end
        | Return _ =>
            (["Error: Failed to download the text from the specified URL"],
             None, Return tt)
        end
    end in
  match body with
  | (printed, fig, Return _) => (printed, fig, SystemExit 0)
  | (printed, fig, Raise e) =>
      if is_Exception e then (printed ++ [exn_str e], fig, SystemExit 0)
      else (printed, fig, e)
  end.

(** ** Vocabulary of the statements *)

Fixpoint forall_chars (p : ascii → bool) (s : string) : bool :=
  match s with
  | EmptyString => true
  | String c rest => p c && forall_chars p rest
  end.

(** A word: not empty and free of whitespace. *)
Definition is_word (w : string) : Prop :=
  w ≠ EmptyString ∧ forall_chars (λ c, negb (isspace c)) w = true.

(** Only whitespace. *)
Definition is_blank (s : string) : Prop := forall_chars isspace s = true.

(** The number of times [w] is in [words]. *)
Definition occurrences (w : string) (words : list string) : nat :=
  length (filter (λ x, x = w) words).

(** The words line 95 maps. *)
Definition counted_words (text : string) (search_words : option (list string))
    : list string :=
  match search_words with
  | Some (w :: ws) => filter (λ word, word ∈ w :: ws) (split (remove_punctuation text))
  | _ => split (remove_punctuation text)
  end.

(** The distinct elements of a list, in the order of their first
    occurrence. *)
Fixpoint first_occurrences (l : list string) : list string :=
  match l with
  | [] => []
  | x :: l' => x :: filter (λ y, y ≠ x) (first_occurrences l')
  end.

(** The values paired with [key], in their order. *)
Definition values_of (key : string) (l : list (string * Z)) : list Z :=
  (filter (λ kv, kv.1 = key) l).*2.

(** [x] may stand before [y] in a ranking: it counts no less. *)
Definition by_count : relation (string * Z) := λ x y, (y.2 ≤ x.2)%Z.

End WordCount.

(** * Properties *)

(** ** Strings *)

Module PyStrFacts.
Import PyStr.

Lemma app_nil_l s : EmptyString +:+ s = s.
Proof. reflexivity. Qed.

Lemma app_cons a s t : String a s +:+ t = String a (s +:+ t).
Proof. reflexivity. Qed.

Lemma app_nil_r s : s +:+ EmptyString = s.
Proof. induction s as [|a s IH]; [done|]. by rewrite app_cons, IH. Qed.

Lemma app_assoc s t u : (s +:+ t) +:+ u = s +:+ t +:+ u.
Proof. induction s as [|a s IH]; [done|]. by rewrite !app_cons, IH. Qed.

Lemma app_length s t :
  String.length (s +:+ t) = String.length s + String.length t.
Proof. induction s as [|a s IH]; [done|]. rewrite app_cons. simpl. by rewrite IH. Qed.

Lemma app_eq_nil s t : s +:+ t = EmptyString → s = EmptyString ∧ t = EmptyString.
Proof. destruct s; [done|]. by rewrite app_cons. Qed.

Lemma length_zero s : String.length s = 0 → s = EmptyString.
Proof. by destruct s. Qed.

Lemma app_inv_tail s t u : s +:+ u = t +:+ u → s = t.
Proof.
  revert t. induction s as [|a s IH]; intros [|b t] H; try done.
  - apply (f_equal String.length) in H. rewrite app_nil_l, app_cons in H.
    simpl in H. rewrite app_length in H. lia.
  - apply (f_equal String.length) in H. rewrite app_nil_l, app_cons in H.
    simpl in H. rewrite app_length in H. lia.
  - rewrite !app_cons in H. injection H as -> H. f_equal. by apply IH.
Qed.

Lemma contains_app c s t : contains c (s +:+ t) = contains c s || contains c t.
Proof.
  induction s as [|a s IH]; [done|]. rewrite app_cons. simpl.
  by destruct (decide (a = c)).
Qed.

Lemma rfind_none c s : rfind c s = None ↔ contains c s = false.
Proof.
  induction s as [|a s IH]; [done|]. simpl.
  destruct (rfind c s) as [i|].
  - split; [done|]. destruct (decide (a = c)); [done|]. intros H.
    by apply IH in H.
  - destruct (decide (a = c)); [done|]. split; [|done]. intros _. by apply IH.
Qed.

Lemma rfind_lt c s i : rfind c s = Some i → i < String.length s.
Proof.
  revert i. induction s as [|a s IH]; intros i; [done|]. simpl.
  destruct (rfind c s) as [j|].
  - intros [= <-]. specialize (IH j eq_refl). lia.
  - destruct (decide (a = c)); [|done]. intros [= <-]. lia.
Qed.

(** The last occurrence of [c] in [s ++ c ++ t] when [t] is free of [c]. *)
Lemma rfind_last c s t :
  contains c t = false → rfind c (s +:+ String c t) = Some (String.length s).
Proof.
  intros Ht. induction s as [|a s IH].
  - rewrite app_nil_l. simpl. apply rfind_none in Ht. rewrite Ht.
    by rewrite decide_True.
  - rewrite app_cons. simpl. by rewrite IH.
Qed.

Lemma rfind_app_clean c s t :
  contains c t = false → rfind c (s +:+ t) = rfind c s.
Proof.
  intros Ht. induction s as [|a s IH].
  - rewrite app_nil_l. by apply rfind_none.
  - rewrite app_cons. simpl. by rewrite IH.
Qed.

Lemma take_drop n s : take n s +:+ drop n s = s.
Proof.
  revert s. induction n as [|n IH]; intros [|a s]; try done.
  simpl. by rewrite app_cons, IH.
Qed.

Lemma take_length n s : n ≤ String.length s → String.length (take n s) = n.
Proof.
  revert s. induction n as [|n IH]; intros [|a s]; simpl; try done; try lia.
  intros. rewrite IH; lia.
Qed.

Lemma take_app_length s t : take (String.length s) (s +:+ t) = s.
Proof. induction s as [|a s IH]; [done|]. rewrite app_cons. simpl. by rewrite IH. Qed.

Lemma drop_app_length s t : drop (String.length s) (s +:+ t) = t.
Proof. induction s as [|a s IH]; [done|]. by rewrite app_cons. Qed.

Lemma contains_take c n s : contains c s = false → contains c (take n s) = false.
Proof.
  revert s. induction n as [|n IH]; intros [|a s]; try done. simpl.
  destruct (decide (a = c)); [done|]. apply IH.
Qed.

Lemma contains_drop c n s : contains c s = false → contains c (drop n s) = false.
Proof.
  revert s. induction n as [|n IH]; intros [|a s]; try done. simpl.
  destruct (decide (a = c)); [done|]. apply IH.
Qed.

(** Where [rfind] points there is a [c], and none after it. *)
Lemma rfind_split c s i :
  rfind c s = Some i →
  s = take i s +:+ String c (drop (S i) s) ∧ contains c (drop (S i) s) = false.
Proof.
  revert i. induction s as [|a s IH]; intros i; [done|]. simpl.
  destruct (rfind c s) as [j|] eqn:Hj.
  - intros [= <-]. destruct (IH j eq_refl) as [Hs Hc]. simpl.
    split; [|done]. rewrite app_cons. by f_equal.
  - destruct (decide (a = c)) as [->|]; [|done]. intros [= <-].
    simpl. split; [done|]. by apply rfind_none.
Qed.

Lemma split_clean c s : contains c s = false → split c s = [s].
Proof.
  induction s as [|a s IH]; [done|]. simpl.
  destruct (decide (a = c)); [done|]. intros H. by rewrite IH.
Qed.

Lemma drop_length n s : String.length (drop n s) = String.length s - n.
Proof. revert s. induction n as [|n IH]; intros [|a s]; simpl; (done || lia). Qed.

Lemma endswith_snoc c s : endswith c (s +:+ String c EmptyString) = true.
Proof.
  induction s as [|a s IH]; [simpl; by rewrite bool_decide_true|].
  rewrite app_cons. simpl. destruct (s +:+ String c EmptyString) eqn:E; [|done].
  by destruct s.
Qed.

Lemma lower_length s : String.length (lower s) = String.length s.
Proof. induction s as [|a s IH]; [done|]. simpl. by rewrite IH. Qed.

End PyStrFacts.

(** ** Paths *)

Module PathlibFacts.
Import PyStr PyStrFacts Pathlib.

Lemma splitroot_plain a s : a ≠ "/"%char → splitroot (String a s) = (EmptyString, String a s).
Proof.
  intros Ha. unfold splitroot.
  destruct a as [[] [] [] [] [] [] [] []]; try reflexivity. by destruct Ha.
Qed.

(** A single clean component parses to itself. *)
Lemma parse_plain n :
  n ≠ EmptyString → n ≠ "." → contains "/" n = false → parse n = Path EmptyString [n].
Proof.
  intros Hne Hdot Hsl. destruct n as [|a s]; [done|].
  unfold parse. rewrite splitroot_plain.
  - rewrite split_clean by done. rewrite filter_cons_True by done. done.
  - intros ->. by simpl in Hsl.
Qed.

Lemma join_plain p n :
  n ≠ EmptyString → n ≠ "." → contains "/" n = false →
  p /: n = Path (root p) (names p ++ [n]).
Proof. intros. unfold join_str. by rewrite parse_plain. Qed.

Lemma name_snoc r l n : name (Path r (l ++ [n])) = n.
Proof. unfold name. simpl. apply last_last. Qed.

Lemma parent_snoc r l n : parent (Path r (l ++ [n])) = Path r l.
Proof. unfold parent. simpl. by rewrite removelast_last. Qed.

(** A name is its stem followed by its suffix. *)
Lemma name_parts n : n = name_stem n +:+ name_suffix n.
Proof.
  unfold name_stem, name_suffix. destruct (rfind "." n) as [i|].
  - destruct (_ && _); [by rewrite take_drop | by rewrite app_nil_r].
  - by rewrite app_nil_r.
Qed.

(** Stem and suffix of [s.e] for a dot-free, non-empty [e]. *)
Lemma name_split_ext s e :
  s ≠ EmptyString → e ≠ EmptyString → contains "." e = false →
  name_suffix (s +:+ String "." e) = String "." e ∧ name_stem (s +:+ String "." e) = s.
Proof.
  intros Hs He Hc. unfold name_suffix, name_stem. rewrite rfind_last by done.
  assert (0 < String.length s) by (destruct s; [done | simpl; lia]).
  assert (0 < String.length e) by (destruct e; [done | simpl; lia]).
  rewrite app_length. simpl.
  replace (0 <? String.length s) with true by (symmetry; apply Nat.ltb_lt; lia).
  replace (String.length s <? String.length s + S (String.length e) - 1)
    with true by (symmetry; apply Nat.ltb_lt; lia).
  simpl. by rewrite drop_app_length, take_app_length.
Qed.

(** A name that ends with its last dot has no suffix. *)
Lemma name_split_trailing s :
  name_suffix (s +:+ ".") = EmptyString ∧ name_stem (s +:+ ".") = s +:+ ".".
Proof.
  unfold name_suffix, name_stem. rewrite rfind_last by done.
  rewrite app_length. simpl.
  replace (String.length s <? String.length s + 1 - 1)
    with false by (symmetry; apply Nat.ltb_ge; lia).
  by rewrite andb_false_r.
Qed.

(** The two shapes of a name. *)
Lemma name_cases n :
  (name_suffix n = EmptyString ∧ name_stem n = n) ∨
  (∃ s e, n = s +:+ String "." e ∧ s ≠ EmptyString ∧ e ≠ EmptyString ∧
          contains "." e = false ∧ name_suffix n = String "." e ∧ name_stem n = s).
Proof.
  unfold name_suffix, name_stem. destruct (rfind "." n) as [i|] eqn:Hi; [|by left].
  destruct (_ && _) eqn:Hb; [|by left]. right.
  apply andb_true_iff in Hb as [H0 H1].
  apply Nat.ltb_lt in H0. apply Nat.ltb_lt in H1.
  destruct (rfind_split _ _ _ Hi) as [Hn Hc].
  exists (take i n), (drop (S i) n). split; [done|].
  pose proof (rfind_lt _ _ _ Hi) as Hlt.
  assert (String.length (take i n) = i) as Hlen by (apply take_length; lia).
  split_and!; try done.
  - intros Ht. rewrite Ht in Hlen. simpl in Hlen. lia.
  - intros Hd. apply (f_equal String.length) in Hn.
    rewrite app_length, Hlen, Hd in Hn. simpl in Hn. lia.
  - pose proof (take_drop i n) as Htd. rewrite Hn in Htd at 3.
    by apply (inj (String.append _)) in Htd.
Qed.

Lemma name_snoc2 r l a n : name (Path r (l ++ [a; n])) = n.
Proof.
  replace (l ++ [a; n]) with ((l ++ [a]) ++ [n]) by (by rewrite <-(assoc_L (++))).
  apply name_snoc.
Qed.

Lemma parent_snoc2 r l a n : parent (Path r (l ++ [a; n])) = Path r (l ++ [a]).
Proof.
  replace (l ++ [a; n]) with ((l ++ [a]) ++ [n]) by (by rewrite <-(assoc_L (++))).
  apply parent_snoc.
Qed.

(** A name without suffix that does not end with a dot has no dot past
    its first character. *)
Lemma no_suffix_rfind n :
  name_suffix n = EmptyString → endswith "." n = false →
  rfind "." n = None ∨ rfind "." n = Some 0.
Proof.
  unfold name_suffix. destruct (rfind "." n) as [i|] eqn:Hi; [|by left].
  intros Hs He. right. f_equal.
  pose proof (rfind_lt _ _ _ Hi) as Hlt.
  destruct (rfind_split _ _ _ Hi) as [Hn _].
  destruct (decide (i = 0)) as [|Hi0]; [done|]. exfalso.
  destruct (decide (i < String.length n - 1)) as [Hlt'|Hge].
  - replace (0 <? i) with true in Hs by (symmetry; apply Nat.ltb_lt; lia).
    replace (i <? String.length n - 1) with true in Hs
      by (symmetry; by apply Nat.ltb_lt).
    simpl in Hs. apply (f_equal String.length) in Hs.
    rewrite drop_length in Hs. simpl in Hs. lia.
  - assert (drop (S i) n = EmptyString) as Hd.
    { apply length_zero. rewrite drop_length. lia. }
    rewrite Hd in Hn. rewrite Hn, endswith_snoc in He. done.
Qed.

Lemma no_suffix_app n x :
  rfind "." n = None ∨ rfind "." n = Some 0 → contains "." x = false →
  name_suffix (n +:+ x) = EmptyString ∧ name_stem (n +:+ x) = n +:+ x.
Proof.
  intros Hn Hx. unfold name_suffix, name_stem. rewrite rfind_app_clean by done.
  by destruct Hn as [-> | ->].
Qed.

End PathlibFacts.

(** ** The names the namer builds *)

Section namer.
Import PyStr PyStrFacts Pathlib PathlibFacts.

Lemma digit_clean c x s :
  (∀ d, pretty_N_char d ≠ c) → contains c s = false →
  contains c (pretty_N_go x s) = false.
Proof.
  intros Hc. revert s. induction (N.lt_wf_0 x) as [x _ IH]; intros s Hs.
  destruct (decide (x = 0)%N) as [->|Hx]; [by rewrite pretty_N_go_0|].
  rewrite pretty_N_go_step by lia. apply IH; [apply N.div_lt; lia|].
  simpl. rewrite decide_False by apply Hc. done.
Qed.

Lemma pretty_nat_clean c (k : nat) :
  (∀ d, pretty_N_char d ≠ c) → contains c (pretty k) = false.
Proof.
  intros Hc. unfold pretty, pretty_nat, pretty, pretty_N.
  case_decide; [|by apply digit_clean].
  simpl. rewrite decide_False; [done|]. apply (Hc 0%N).
Qed.

Lemma digit_not_dot d : pretty_N_char d ≠ "."%char.
Proof. unfold pretty_N_char. by repeat case_match. Qed.

Lemma digit_not_slash d : pretty_N_char d ≠ "/"%char.
Proof. unfold pretty_N_char. by repeat case_match. Qed.

Lemma indexed_stem_dot s k :
  contains "." (indexed_stem s k) = contains "." s.
Proof.
  unfold indexed_stem. rewrite !contains_app.
  rewrite (pretty_nat_clean _ k digit_not_dot). simpl. by rewrite orb_false_r.
Qed.

Lemma indexed_stem_slash s k :
  contains "/" (indexed_stem s k) = contains "/" s.
Proof.
  unfold indexed_stem. rewrite !contains_app.
  rewrite (pretty_nat_clean _ k digit_not_slash). simpl. by rewrite orb_false_r.
Qed.

Lemma indexed_stem_length s k : String.length s + 3 ≤ String.length (indexed_stem s k).
Proof. unfold indexed_stem. rewrite !app_length. simpl. lia. Qed.

Lemma indexed_stem_inj s k k' : indexed_stem s k = indexed_stem s k' → k = k'.
Proof.
  unfold indexed_stem. intros H.
  apply (inj (String.append _)) in H. apply (inj (String.append _)) in H.
  apply app_inv_tail in H. by apply (inj pretty) in H.
Qed.

Lemma long_not_dot s : 2 ≤ String.length s → s ≠ ".".
Proof. intros H ->. simpl in H. lia. Qed.

Lemma nonempty_length s : s ≠ EmptyString ↔ 0 < String.length s.
Proof. destruct s; simpl; split; (done || lia). Qed.

Context (file dest : path).
Hypothesis Hvalid : valid_name (name file).

Lemma stem_nonempty : stem file ≠ EmptyString.
Proof.
  destruct Hvalid as [Hne _]. unfold stem.
  destruct (name_cases (name file)) as [[_ ->] | (s & e & _ & Hs & _ & _ & _ & ->)]; done.
Qed.

Lemma stem_slash : contains "/" (stem file) = false.
Proof.
  destruct Hvalid as [_ Hsl]. rewrite (name_parts (name file)), contains_app in Hsl.
  by apply orb_false_iff in Hsl as [? _].
Qed.

Lemma suffix_slash : contains "/" (suffix file) = false.
Proof.
  destruct Hvalid as [_ Hsl]. rewrite (name_parts (name file)), contains_app in Hsl.
  by apply orb_false_iff in Hsl as [_ ?].
Qed.

(** Line 55 strips the dot of the suffix. *)
Lemma file_extension_drop : file_extension file = drop 1 (suffix file).
Proof.
  unfold file_extension, suffix.
  by destruct (name_cases (name file)) as [[-> _] | (s & e & _ & _ & _ & _ & -> & _)].
Qed.

Lemma category_clean :
  category file ≠ EmptyString ∧ category file ≠ "." ∧ contains "/" (category file) = false.
Proof.
  unfold category. case_decide as Hext; [done|].
  split; [done|]. pose proof suffix_slash as Hsl. unfold suffix in *.
  destruct (name_cases (name file)) as [[Hs _] | (s & e & _ & _ & He & Hdot & Hs & _)];
    rewrite Hs in *; [done|].
  simpl in *. split; [by intros -> | done].
Qed.

Lemma counter_name_clean k :
  2 ≤ String.length (counter_name file k) ∧ contains "/" (counter_name file k) = false.
Proof.
  pose proof stem_nonempty as Hne. apply nonempty_length in Hne.
  pose proof stem_slash. pose proof suffix_slash as Hsf.
  destruct k as [|k]; unfold counter_name.
  - rewrite !app_length, !contains_app, (contains_drop _ 1 _ Hsf), H.
    split; [simpl; lia | done].
  - pose proof (indexed_stem_length (stem file) (S k)).
    rewrite app_length, contains_app, indexed_stem_slash. split; [lia|].
    by rewrite H, Hsf.
Qed.

(** Line 57 builds the first name under the category folder. *)
Lemma initial_candidate_counter : initial_candidate file dest = counter_path file dest 0.
Proof.
  unfold initial_candidate, counter_path. rewrite file_extension_drop.
  destruct category_clean as (Hc1 & Hc2 & Hc3).
  destruct (counter_name_clean 0) as [Hn1 Hn2].
  assert ((if truthy (drop 1 (suffix file)) then drop 1 (suffix file)
           else "without_extension") = category file) as ->.
  { unfold category. by destruct (drop 1 (suffix file)). }
  change (stem file +:+ "." +:+ drop 1 (suffix file)) with (counter_name file 0).
  rewrite (join_plain dest (category file)) by done.
  rewrite join_plain; [|apply nonempty_length; lia|by apply long_not_dot|done].
  cbn [root names]. by rewrite <-(assoc_L (++)).
Qed.

Lemma counter_name_suffix_0 : name_suffix (counter_name file 0) = suffix file.
Proof.
  unfold counter_name, suffix, stem.
  destruct (name_cases (name file)) as [[Hs Hst] | (s & e & _ & Hs' & He & Hdot & Hs & Hst)];
    rewrite Hs, Hst.
  - apply name_split_trailing.
  - by apply (name_split_ext s e).
Qed.

(** Past the first name, the suffix survives the rewriting of the stem
    when the file name does not end with a dot. *)
Lemma counter_name_suffix k :
  endswith "." (name file) = false →
  name_suffix (counter_name file (S k)) = suffix file.
Proof.
  intros Hdot. unfold counter_name, suffix, stem.
  destruct (name_cases (name file)) as [[Hs Hst] | (s & e & _ & Hs' & He & Hd & Hs & Hst)];
    rewrite Hs, Hst.
  - rewrite app_nil_r. unfold indexed_stem.
    apply no_suffix_app; [by apply no_suffix_rfind|].
    rewrite !contains_app, (pretty_nat_clean _ _ digit_not_dot). done.
  - apply name_split_ext; [|done..].
    apply nonempty_length. pose proof (indexed_stem_length s (S k)). lia.
Qed.

Lemma removelast_snoc2 {A} (l : list A) a n : removelast (l ++ [a; n]) = l ++ [a].
Proof.
  replace (l ++ [a; n]) with ((l ++ [a]) ++ [n]) by (by rewrite <-(assoc_L (++))).
  apply removelast_last.
Qed.

(** One turn of the loop moves from a counter name to the next. *)
Lemma next_counter k :
  endswith "." (name file) = false ∨ k = 0 →
  next_candidate (stem file) (counter_path file dest k) k
  = Return (counter_path file dest (S k)).
Proof.
  intros Hk. unfold next_candidate, with_stem, with_name, suffix, counter_path.
  rewrite name_snoc2. cbn [root names].
  destruct (counter_name_clean k) as [Hl Hsl].
  destruct (counter_name_clean (S k)) as [Hl' Hsl'].
  assert (name_suffix (counter_name file k) = suffix file) as ->.
  { destruct k as [|k]; [apply counter_name_suffix_0|].
    destruct Hk as [Hk|Hk]; [by apply counter_name_suffix | done]. }
  change (indexed_stem (stem file) (S k) +:+ suffix file)
    with (counter_name file (S k)).
  rewrite decide_False by (apply nonempty_length; lia).
  rewrite decide_False.
  - by rewrite removelast_snoc2, <-(assoc_L (++)).
  - intros [H|[H|H]].
    + apply nonempty_length in H; [done|lia].
    + by rewrite Hsl' in H.
    + by apply long_not_dot in H.
Qed.

Lemma candidate_counter k :
  endswith "." (name file) = false →
  candidate file dest k = Return (counter_path file dest k).
Proof.
  intros Hdot. induction k as [|k IH]; simpl.
  - by rewrite initial_candidate_counter.
  - rewrite IH. simpl. apply next_counter. by left.
Qed.

Lemma counter_name_inj k k' : counter_name file k = counter_name file k' → k = k'.
Proof.
  assert (∀ j, counter_name file 0 ≠ counter_name file (S j)) as H0.
  { intros j. unfold counter_name, indexed_stem. rewrite !app_assoc.
    intros H. apply (inj (String.append _)) in H. done. }
  destruct k as [|k], k' as [|k']; intros H; try done.
  - by apply H0 in H.
  - symmetry in H. by apply H0 in H.
  - unfold counter_name in H. apply app_inv_tail in H.
    by apply indexed_stem_inj in H.
Qed.

Lemma counter_path_inj k k' :
  counter_path file dest k = counter_path file dest k' → k = k'.
Proof.
  unfold counter_path. intros [= H]. apply (inj (app _)) in H.
  injection H as H. by apply counter_name_inj.
Qed.

End namer.

(** ** The probing loop *)

Section probing.
Import Pathlib.

(** Along any sequence [c] that the loop body follows, the loop stops
    at the first path that does not exist. *)
Lemma probe_loop_run fs file_name (c : nat → path) n :
  (∀ k, k < n → next_candidate file_name (c k) k = Return (c (S k))) →
  (∀ k, k < n → path_exists fs (c k) = true) →
  path_exists fs (c n) = false →
  ∀ fuel j, j ≤ n → n - j < fuel →
    probe_loop fuel fs file_name (c j) j = Some (Return (c n)).
Proof.
  intros Hnext Hex Hfree. induction fuel as [|fuel IH]; intros j Hj Hfuel; [lia|].
  simpl. destruct (decide (j = n)) as [->|Hne].
  - by rewrite Hfree.
  - rewrite Hex, Hnext by lia. apply IH; lia.
Qed.

(** Below any bound, either every index is taken or there is a first
    free one. *)
Lemma first_free_below (P : nat → bool) m :
  (∀ k, k < m → P k = true) ∨
  (∃ n, n < m ∧ P n = false ∧ ∀ k, k < n → P k = true).
Proof.
  induction m as [|m [IH|IH]].
  - left. lia.
  - destruct (P m) eqn:Hm.
    + left. intros k Hk. destruct (decide (k = m)) as [->|]; [done|]. apply IH. lia.
    + right. exists m. split_and!; [lia|done|done].
  - right. destruct IH as (n & ? & ? & ?). exists n. split_and!; [lia|done|done].
Qed.

(** A file system cannot hold more distinct paths than its size. *)
Lemma taken_bound (fs : gmap path fs_node) (c : nat → path) m :
  (∀ k k', c k = c k' → k = k') →
  (∀ k, k < m → path_exists fs (c k) = true) → m ≤ size fs.
Proof.
  intros Hinj Hall.
  assert (NoDup (c <$> seq 0 m)) as Hnd.
  { apply NoDup_fmap_2_strong; [|apply NoDup_seq]. intros; by apply Hinj. }
  assert (c <$> seq 0 m ⊆+ elements (dom fs)) as Hsub.
  { apply NoDup_submseteq; [done|]. intros x Hx.
    apply list_elem_of_fmap in Hx as (k & -> & Hk). apply elem_of_seq in Hk.
    apply elem_of_elements, elem_of_dom. 
    specialize (Hall k ltac:(lia)). unfold path_exists in Hall.
    by apply bool_decide_eq_true in Hall. }
  apply submseteq_length in Hsub. rewrite length_fmap, length_seq in Hsub.
  by rewrite <-size_dom.
Qed.

Lemma first_free (fs : gmap path fs_node) (c : nat → path) :
  (∀ k k', c k = c k' → k = k') →
  ∃ n, n ≤ size fs ∧ path_exists fs (c n) = false ∧
       ∀ k, k < n → path_exists fs (c k) = true.
Proof.
  intros Hinj.
  destruct (first_free_below (λ k, path_exists fs (c k)) (S (size fs)))
    as [Hall | (n & Hn & Hfree & Hbefore)].
  - apply (taken_bound fs c _ Hinj) in Hall. lia.
  - exists n. split_and!; [lia|done|done].
Qed.

(** For a file whose name does not end with a dot, [file_path_build]
    returns, within [size fs + 1] turns, the first counter path that does
    not exist. *)
Lemma file_path_build_first_free (fs : gmap path fs_node) file dest :
  valid_name (name file) → PyStr.endswith "." (name file) = false →
  ∃ n, n ≤ size fs ∧
    (∀ fuel, n < fuel →
       file_path_build fuel fs file dest = Some (Return (counter_path file dest n))) ∧
    path_exists fs (counter_path file dest n) = false ∧
    ∀ k, k < n → path_exists fs (counter_path file dest k) = true.
Proof.
  intros Hvalid Hdot.
  destruct (first_free fs (counter_path file dest)) as (n & Hn & Hfree & Hbefore).
  { intros k k'. by apply counter_path_inj. }
  exists n. split_and!; try done.
  intros fuel Hfuel. unfold file_path_build.
  rewrite initial_candidate_counter by done.
  apply (probe_loop_run fs (stem file) (counter_path file dest) n); try done; try lia.
  intros k _. apply next_counter; [done | by left].
Qed.

End probing.

(** ** The path resolver *)

Lemma parse_absolute s :
  Pathlib.is_absolute (Pathlib.parse s) = PyStr.startswith "/" s.
Proof.
  destruct s as [|a s]; [done|].
  destruct (decide (a = "/"%char)) as [->|Ha].
  - unfold Pathlib.parse, Pathlib.splitroot. by case_decide.
  - unfold Pathlib.parse. rewrite PathlibFacts.splitroot_plain by done.
    simpl. by rewrite bool_decide_false.
Qed.

Lemma join_absolute p q :
  Pathlib.is_absolute p = true → Pathlib.is_absolute (p // q) = true.
Proof.
  unfold Pathlib.join, Pathlib.is_absolute. intros Hp.
  destruct (decide (root q = "")) as [Hq|Hq]; [done|]. by apply bool_decide_eq_true.
Qed.




(** ** The first destination name *)

(** C6. For every file (with a name a directory listing can yield) and
    destination root, the first value of [new_file_name] is the
    destination root, then the category folder, then the name
    [stem.extension]; the category is the suffix without its dot, or
    [without_extension] when that is empty, so a file without suffix goes
    to [without_extension] under its stem followed by a dot; and this
    first candidate is what the namer returns when nothing exists at
    it. *)
Theorem initial_candidate_by_extension (file dest : path) :
  valid_name (Pathlib.name file) →
  let extension := PyStr.drop 1 (Pathlib.suffix file) in
  let stem := Pathlib.stem file in
  candidate file dest 0 = Return (initial_candidate file dest) ∧
  initial_candidate file dest
    = Path (root dest)
        (names dest ++ [(if decide (extension = "") then "without_extension"
                         else extension); stem +:+ "." +:+ extension]) ∧
  (Pathlib.suffix file = "" →
     initial_candidate file dest
       = Path (root dest) (names dest ++ ["without_extension"; stem +:+ "."])) ∧
  (PyStr.contains "." (Pathlib.name file) = false →
     initial_candidate file dest
       = Path (root dest)
           (names dest ++ ["without_extension"; Pathlib.name file +:+ "."])) ∧
  (∀ fs fuel, path_exists fs (initial_candidate file dest) = false →
     file_path_build (S fuel) fs file dest = Some (Return (initial_candidate file dest))).
Proof.
  intros Hvalid extension stem.
  pose proof (initial_candidate_counter file dest Hvalid) as Hc.
  unfold counter_path, category, counter_name in Hc. fold extension stem in Hc.
  assert (Pathlib.suffix file = "" →
          initial_candidate file dest
          = Path (root dest) (names dest ++ ["without_extension"; stem +:+ "."])) as Hno.
  { intros Hs. rewrite Hc. unfold extension. by rewrite Hs. }
  split_and!; try done.
  - intros Hdot. apply PyStrFacts.rfind_none in Hdot.
    assert (Pathlib.suffix file = "") as Hs
      by (unfold Pathlib.suffix, Pathlib.name_suffix; by rewrite Hdot).
    rewrite (Hno Hs). unfold stem, Pathlib.stem, Pathlib.name_stem. by rewrite Hdot.
  - intros fs fuel Hfree. unfold file_path_build. simpl. by rewrite Hfree.
Qed.

Lemma initial_candidate_by_extension_witness :
  initial_candidate (Path "/" ["src"; "readme"]) (Path "/" ["dist"])
    = Path "/" ["dist"; "without_extension"; "readme."].
Proof.
  apply (initial_candidate_by_extension (Path "/" ["src"; "readme"]) (Path "/" ["dist"]));
    [split; [discriminate | reflexivity] | reflexivity].
Defined.

(** ** Renaming on collision *)

(** C2, at a file whose name ends with a dot. The destination holds the
    first candidate [a..] and the renamed [a. (1)]; the namer answers
    [a. (2). (1)] and not [a. (2)]: the counter of the previous turn is
    carried along as the suffix of the new name. *)
Example file_path_build_trailing_dot :
  let fs : gmap path fs_node :=
    <[Path "/" ["dist"; "without_extension"; "a.."] := File "x"]>
      (<[Path "/" ["dist"; "without_extension"; "a. (1)"] := File "y"]> ∅) in
  let file := Path "/" ["src"; "a."] in
  let dest := Path "/" ["dist"] in
  file_path_build 3 fs file dest
    = Some (Return (Path "/" ["dist"; "without_extension"; "a. (2). (1)"])) ∧
  counter_path file dest 2 = Path "/" ["dist"; "without_extension"; "a. (2)"] ∧
  Pathlib.suffix file = "" ∧
  Pathlib.name_suffix "a. (2). (1)" = ". (1)".
Proof. by vm_compute. Qed.

(** ** The lock registry *)

Section registry.

Lemma registry_ok_empty : registry_ok empty_registry.
Proof. split; intros *; simpl; by rewrite lookup_empty. Qed.

(** A lookup answers with the lock stored under the key afterwards. *)
Lemma lock_for_stored r k :
  locks (lock_for r k).2 !! k = Some (lock_for r k).1.
Proof.
  unfold lock_for. destruct (locks r !! k) eqn:Hk; simpl; [done|].
  by rewrite lookup_insert_eq.
Qed.

(** A lookup removes nothing and changes no stored lock. *)
Lemma lock_for_grows r k : locks r ⊆ locks (lock_for r k).2.
Proof.
  unfold lock_for. destruct (locks r !! k) eqn:Hk; simpl; [done|].
  by apply insert_subseteq.
Qed.

Lemma lock_for_ok r k : registry_ok r → registry_ok (lock_for r k).2.
Proof.
  intros [Hlt Hinj]. unfold lock_for.
  destruct (locks r !! k) eqn:Hk; simpl; [done|]. split; simpl.
  - intros k' l. rewrite lookup_insert. case_decide.
    + intros [= <-]. lia.
    + intros H'. apply Hlt in H'. lia.
  - intros k1 k2 l. rewrite !lookup_insert. repeat case_decide; subst.
    + done.
    + intros [= <-] H2. apply Hlt in H2. lia.
    + intros H1 [= <-]. apply Hlt in H1. lia.
    + apply Hinj.
Qed.

Lemma lookups_snoc keys k : lookups (keys ++ [k]) = (lock_for (lookups keys) k).2.
Proof. unfold lookups. by rewrite foldl_app. Qed.

Lemma lookups_ok keys : registry_ok (lookups keys).
Proof.
  induction keys as [|k keys IH] using rev_ind; [apply registry_ok_empty|].
  rewrite lookups_snoc. by apply lock_for_ok.
Qed.

Lemma lookups_grow keys more : locks (lookups keys) ⊆ locks (lookups (keys ++ more)).
Proof.
  induction more as [|k more IH] using rev_ind; [by rewrite app_nil_r|].
  rewrite (assoc_L (++)), lookups_snoc. etrans; [apply IH|apply lock_for_grows].
Qed.

(** The lock a lookup returned stays stored under its key. *)
Lemma lock_at_stored keys i l k :
  keys !! i = Some k → lock_at keys i = Some l → locks (lookups keys) !! k = Some l.
Proof.
  intros Hk. unfold lock_at. rewrite Hk. simpl. intros [= <-].
  pose proof (lookups_grow (take (S i) keys) (drop (S i) keys)) as Hgrow.
  rewrite take_drop in Hgrow. eapply lookup_weaken; [|apply Hgrow].
  rewrite (take_S_r _ _ _ Hk), lookups_snoc. apply lock_for_stored.
Qed.

End registry.



(** ** The walker *)

(** C10. Whatever the walker meets, and whatever exception ends its loop
    (an [OSError] or any other), [read_folder] returns: its result is the
    list its loop had accumulated, never an exception. *)
Theorem read_folder_never_raises (source_folder : path) (n : node) (lg : log) :
  ∃ lg', read_folder source_folder n lg
         = (lg', Return (scan source_folder n []
                           (lg ++ [(INFO, "Process folder: "
                                           +:+ Pathlib.as_posix source_folder)])).1.1).
Proof.
  unfold read_folder, read_folder_frame.
  destruct (scan _ _ _ _) as [[files lg1] [e|]]; simpl.
  - destruct (is_OSError e); by eexists.
  - by eexists.
Qed.

(** A loop ended by an exception that is not an [OSError] still gives
    the files found before it. *)
Example read_folder_swallows_any_exception :
  (read_folder (Path "/" ["src"])
     (Directory [("a.txt", Regular "1")] (Some (OtherException "cancelled"))) []).2
  = Return [Path "/" ["src"; "a.txt"]].
Proof. reflexivity. Qed.

(** C4, at a source folder that holds a link to a regular file and a link
    to a directory. Both links are followed: the first is recorded as a
    file and the second is descended into, and nothing is logged as
    skipped. *)
Example read_folder_follows_links :
  read_folder (Path "/" ["src"])
    (Directory [("a.txt", Regular "1");
                ("link", Symlink (Some (Regular "2")));
                ("dirlink", Symlink (Some (Directory [("b.txt", Regular "3")] None)))]
       None) []
  = ([(INFO, "Process folder: /src"); (INFO, "Process folder: /src/dirlink")],
     Return [Path "/" ["src"; "a.txt"]; Path "/" ["src"; "link"];
             Path "/" ["src"; "dirlink"; "b.txt"]]).
Proof. reflexivity. Qed.

(** On a tree without symbolic links the walk is the recursive descent
    of the specification: the files its loop accumulates are the regular
    files listed before any fault. *)
Lemma scan_link_free (n : node) :
  link_free n = true →
  ∀ source_folder files lg,
    (scan source_folder n files lg).1.1 = files ++ regular_files source_folder n.
Proof.
  revert n. fix IH 1. intros [data|entries fault|target|] Hfree source_folder files lg;
    simpl in *; try done; try by rewrite app_nil_r.
  revert files lg. induction entries as [|[nm child] es IHes]; intros files lg.
  - by rewrite app_nil_r.
  - apply andb_true_iff in Hfree as [Hchild Hes].
    specialize (IHes Hes). specialize (IH child Hchild).
    destruct child as [data|entries' fault'|target|]; try done.
    + cbn [is_dir is_file]. rewrite IHes. by rewrite <-(assoc_L (++)).
    + cbn [is_dir]. unfold read_folder_frame.
      destruct (scan (source_folder /: nm) (Directory entries' fault') [] _)
        as [[found lg1] pending] eqn:Hscan.
      pose proof (IH (source_folder /: nm) []
                    (lg ++ [(INFO, "Process folder: "
                                   +:+ Pathlib.as_posix (source_folder /: nm))]))
        as Hfound.
      rewrite Hscan in Hfound. simpl in Hfound. subst found.
      destruct pending as [e|]; [destruct (is_OSError e)|];
        unfold finally_return; rewrite IHes; by rewrite <-(assoc_L (++)).
    + cbn [is_dir is_file]. by rewrite IHes.
Qed.

Lemma read_folder_link_free (source_folder : path) (n : node) (lg : log) :
  link_free n = true →
  (read_folder source_folder n lg).2 = Return (regular_files source_folder n).
Proof.
  intros Hfree. unfold read_folder, read_folder_frame.
  pose proof (scan_link_free n Hfree source_folder []
                (lg ++ [(INFO, "Process folder: " +:+ Pathlib.as_posix source_folder)]))
    as Hfound.
  destruct (scan _ _ _ _) as [[found lg1] pending]. simpl in Hfound. subst found.
  by destruct pending as [e|]; [destruct (is_OSError e)|].
Qed.

(** ** The command line *)




(** ** Coroutines under a schedule *)

Section scheduling.

Lemma move_at s i w p :
  tasks s !! i = Some w → move s i w p !! i = Some (Worker (file w) (folder w) p).
Proof.
  intros Hw. unfold move. apply list_lookup_insert_eq. by eapply lookup_lt_Some.
Qed.

Lemma move_other s i j w p : j ≠ i → move s i w p !! j = tasks s !! j.
Proof. intros Hne. unfold move. by apply list_lookup_insert_ne. Qed.

Lemma move_cases s i j w p wj :
  tasks s !! i = Some w → move s i w p !! j = Some wj →
  (j = i ∧ wj = Worker (file w) (folder w) p) ∨ (j ≠ i ∧ tasks s !! j = Some wj).
Proof.
  intros Hw Hj. destruct (decide (j = i)) as [->|Hne].
  - left. rewrite (move_at _ _ _ _ Hw) in Hj. by injection Hj as <-.
  - right. by rewrite move_other in Hj.
Qed.

(** [step] follows the cases of [transition]. *)
Lemma step_transition s i o s' :
  step s i o = Some s' →
  ∃ w p, tasks s !! i = Some w ∧
         transition s w o p (fsys s') (reg s') (held s') ∧
         tasks s' = move s i w p.
Proof.
  unfold step. destruct (tasks s !! i) as [w|] eqn:Hw; [|done].
  intros Hstep. exists w.
  destruct (at_ w) as [|l|l c k|l c|l c| |] eqn:Hat; try done.
  - destruct (lock_for _ _) as [l r] eqn:Hl. case_decide; injection Hstep as <-.
    + eexists. split_and!; [done| |done]. simpl. by eapply t_wait.
    + eexists. split_and!; [done| |done]. simpl. by eapply t_lock.
  - case_decide; [done|]. injection Hstep as <-.
    eexists. split_and!; [done| |done]. simpl. by eapply t_wake.
  - destruct (path_exists _ _) eqn:Hex.
    + destruct (next_candidate _ _ _) as [c'|e] eqn:Hn; injection Hstep as <-.
      * eexists. split_and!; [done| |done]. simpl. by eapply t_next.
      * eexists. split_and!; [done| |done]. simpl. by eapply t_name_error.
    + injection Hstep as <-. eexists. split_and!; [done| |done]. simpl. by eapply t_free.
  - destruct o as [|e].
    + destruct (mkdir_parents _ _) as [fs'|] eqn:Hm; [|done]. injection Hstep as <-.
      eexists. split_and!; [done| |done]. simpl. by eapply t_mkdir.
    + injection Hstep as <-. unfold failed.
      exists (if is_OSError e then Done None else Raised e). split_and!; [done| |].
      * simpl. destruct (is_OSError e) eqn:He; simpl;
          pose proof (t_fail s w (Fails e) l c e (or_introl Hat) eq_refl) as Ht;
          by rewrite He in Ht.
      * by destruct (is_OSError e).
  - destruct o as [|e].
    + destruct (copyfile _ _ _) as [fs'|] eqn:Hm; [|done]. injection Hstep as <-.
      eexists. split_and!; [done| |done]. simpl. by eapply t_copy.
    + injection Hstep as <-. unfold failed.
      exists (if is_OSError e then Done None else Raised e). split_and!; [done| |].
      * simpl. destruct (is_OSError e) eqn:He; simpl;
          pose proof (t_fail s w (Fails e) l c e (or_intror Hat) eq_refl) as Ht;
          by rewrite He in Ht.
      * by destruct (is_OSError e).
Qed.

(** What a step preserves, every schedule preserves. *)
Lemma run_invariant (P : system → Prop) :
  (∀ s i o s', P s → step s i o = Some s' → P s') →
  ∀ schedule s s', P s → run s schedule = Some s' → P s'.
Proof.
  intros Hstep. induction schedule as [|[i o] rest IH]; intros s s' HP; simpl.
  - by intros [= <-].
  - destruct (step s i o) as [s1|] eqn:Hs; [|done]. apply IH. by eapply Hstep.
Qed.

Lemma run_app s sched1 sched2 :
  run s (sched1 ++ sched2) = s1 ← run s sched1; run s1 sched2.
Proof.
  revert s. induction sched1 as [|[i o] rest IH]; intros s; simpl; [done|].
  destruct (step s i o); [apply IH | done].
Qed.

(** The files and folders of the coroutines never change. *)
Lemma step_files s i o s' :
  step s i o = Some s' →
  (λ w, (file w, folder w)) <$> tasks s' = (λ w, (file w, folder w)) <$> tasks s.
Proof.
  intros (w & p & Hw & _ & ->)%step_transition. unfold move.
  rewrite list_fmap_insert. simpl. apply list_insert_id.
  by rewrite list_lookup_fmap, Hw.
Qed.

Lemma run_files schedule s s' :
  run s schedule = Some s' →
  (λ w, (file w, folder w)) <$> tasks s' = (λ w, (file w, folder w)) <$> tasks s.
Proof.
  intros Hrun.
  apply (run_invariant (λ x, (λ w, (file w, folder w)) <$> tasks x
                             = (λ w, (file w, folder w)) <$> tasks s))
    with (schedule := schedule) (s := s); [|done|done].
  intros s1 i o s2 H1 Hs. by rewrite (step_files _ _ _ _ Hs).
Qed.

Lemma spawned_task fs r lg files dest i w :
  tasks (spawn fs r lg files dest) !! i = Some w →
  files !! i = Some (file w) ∧ folder w = dest ∧ at_ w = Start.
Proof.
  simpl. rewrite list_lookup_fmap. destruct (files !! i); [|done].
  by intros [= <-].
Qed.

(** A coroutine of a reached state is the coroutine spawned for the
    file at its place. *)
Lemma run_task fs r lg files dest schedule s i w :
  run (spawn fs r lg files dest) schedule = Some s → tasks s !! i = Some w →
  files !! i = Some (file w) ∧ folder w = dest.
Proof.
  intros Hrun Hw. apply run_files in Hrun.
  apply (f_equal (λ l, l !! i)) in Hrun. rewrite !list_lookup_fmap, Hw in Hrun.
  unfold spawn in Hrun. cbn [tasks] in Hrun. rewrite list_lookup_fmap in Hrun.
  destruct (files !! i) as [f|]; [|done].
  simpl in Hrun. by injection Hrun as -> ->.
Qed.

(** What a step does to the locks. *)
Lemma transition_locks s w o p fs' r' h' :
  registry_ok (reg s) → transition s w o p fs' r' h' →
  (registry_ok r' ∧ locks (reg s) ⊆ locks r') ∧
  (∀ l, lock_known p = Some l →
     locks r' !! lock_key (file w) = Some l ∨ lock_known (at_ w) = Some l) ∧
  (∀ l, lock_of p = Some l →
     (lock_of (at_ w) = Some l ∧ (l ∈ held s → l ∈ h')) ∨ ((l ∉ held s) ∧ l ∈ h')) ∧
  (∀ l, l ∈ held s → lock_of (at_ w) ≠ Some l → l ∈ h') ∧
  (∀ l, l ∈ h' →
     (l ∈ held s ∧ (lock_of (at_ w) = Some l → lock_of p = Some l)) ∨
     lock_of p = Some l).
Proof.
  intros Hreg Ht.
  assert (∀ l r, lock_for (reg s) (lock_key (file w)) = (l, r) →
            (registry_ok r ∧ locks (reg s) ⊆ locks r) ∧
            locks r !! lock_key (file w) = Some l) as Hlookup.
  { intros l r Hl. pose proof (lock_for_ok _ (lock_key (file w)) Hreg) as H1.
    pose proof (lock_for_grows (reg s) (lock_key (file w))) as H2.
    pose proof (lock_for_stored (reg s) (lock_key (file w))) as H3.
    rewrite Hl in H1, H2, H3. done. }
  destruct Ht as [l r Hat Hl Hin | l r Hat Hl Hnin | l Hat Hnin | l c k c' Hat _ _
                 | l c k e Hat _ _ | l c k Hat _ | l c fs1 Hat _ _ | l c fs1 Hat _ _
                 | l c e Hat _];
    try (destruct (Hlookup _ _ Hl) as [[Hr Hsub] Hst]);
    try (destruct Hat as [Hat|Hat]); try (destruct (is_OSError e));
    rewrite Hat; simpl; split_and!; try done;
    try (intros l0 ?; simplify_eq; by eauto);
    try (intros l0; destruct (decide (l0 = l)) as [->|]; set_solver).
Qed.

Lemma locks_ok_step s i o s' : locks_ok s → step s i o = Some s' → locks_ok s'.
Proof.
  intros (Hreg & Hknown & Hheld & Hmutex & Hholder)
         (w & p & Hw & Ht & Htasks)%step_transition.
  destruct (transition_locks _ _ _ _ _ _ _ Hreg Ht)
    as ((Hreg' & Hgrow) & Fknown & Fof & Fkeep & Fheld).
  unfold locks_ok. rewrite Htasks. split_and!.
  - done.
  - intros j wj l Hj Hl. destruct (move_cases _ _ _ _ _ _ Hw Hj) as [[-> ->]|[Hne Hj']].
    + simpl in *. destruct (Fknown l Hl) as [?|Hold]; [done|].
      eapply lookup_weaken; [|done]. by eapply Hknown.
    + eapply lookup_weaken; [|done]. by eapply Hknown.
  - intros j wj l Hj Hl. destruct (move_cases _ _ _ _ _ _ Hw Hj) as [[-> ->]|[Hne Hj']].
    + simpl in *. destruct (Fof l Hl) as [[Hold Hin]|[_ ?]]; [|done].
      apply Hin. by eapply Hheld.
    + apply Fkeep; [by eapply Hheld|]. intros Hwl. apply Hne.
      by eapply (Hmutex j i wj w l).
  - intros j1 j2 w1 w2 l H1 H2 Hl1 Hl2.
    destruct (move_cases _ _ _ _ _ _ Hw H1) as [[-> ->]|[Hne1 H1']];
      destruct (move_cases _ _ _ _ _ _ Hw H2) as [[-> ->]|[Hne2 H2']]; simpl in *.
    + done.
    + destruct (Fof l Hl1) as [[Hold _]|[Hfree _]].
      * by eapply (Hmutex i j2 w w2 l).
      * destruct Hfree. by eapply Hheld.
    + destruct (Fof l Hl2) as [[Hold _]|[Hfree _]].
      * by eapply (Hmutex j1 i w1 w l).
      * destruct Hfree. by eapply Hheld.
    + by eapply Hmutex.
  - intros l Hl. destruct (Fheld l Hl) as [[Hin Hsame]|Hnew].
    + destruct (Hholder l Hin) as (j & wj & Hj & Hjl).
      destruct (decide (j = i)) as [->|Hne].
      * exists i, (Worker (file w) (folder w) p). split; [by apply move_at|].
        simpl. apply Hsame. congruence.
      * exists j, wj. split; [by rewrite move_other|done].
    + exists i, (Worker (file w) (folder w) p). split; [by apply move_at|done].
Qed.

Lemma locks_ok_spawn fs r lg files dest :
  registry_ok r → locks_ok (spawn fs r lg files dest).
Proof.
  intros Hr. split_and!; try done.
  - by intros i w l (_ & _ & ->)%spawned_task.
  - by intros i w l (_ & _ & ->)%spawned_task.
  - by intros i j wi wj l (_ & _ & ->)%spawned_task.
Qed.

Lemma locks_ok_run fs r lg files dest schedule s :
  registry_ok r → run (spawn fs r lg files dest) schedule = Some s → locks_ok s.
Proof.
  intros Hr. apply (run_invariant locks_ok).
  - intros *. apply locks_ok_step.
  - by apply locks_ok_spawn.
Qed.

(** Two coroutines inside [async with] never have the same key. *)
Lemma mutual_exclusion s i j wi wj li lj :
  locks_ok s → tasks s !! i = Some wi → tasks s !! j = Some wj →
  lock_of (at_ wi) = Some li → lock_of (at_ wj) = Some lj →
  lock_key (file wi) = lock_key (file wj) → i = j.
Proof.
  intros (_ & Hknown & _ & Hmutex & _) Hi Hj Hli Hlj Hkey.
  assert (∀ p l, lock_of p = Some l → lock_known p = Some l) as Hk
    by (intros [] ?; naive_solver).
  pose proof (Hknown _ _ _ Hi (Hk _ _ Hli)) as H1.
  pose proof (Hknown _ _ _ Hj (Hk _ _ Hlj)) as H2.
  rewrite Hkey in H1. assert (li = lj) as -> by congruence.
  by eapply Hmutex.
Qed.

(** No reached state is a deadlock: while a coroutine is unfinished,
    some coroutine can run. *)
Lemma progress s j wj :
  locks_ok s → tasks s !! j = Some wj → finished wj = false →
  ∃ i o, is_Some (step s i o).
Proof.
  intros (_ & _ & _ & _ & Hholder) Hj Hfin.
  assert (∀ i w, tasks s !! i = Some w → is_Some (lock_of (at_ w)) →
            is_Some (step s i (Fails (OSError "")))) as Hcrit.
  { intros i w Hw [l Hl]. unfold step. rewrite Hw.
    destruct (at_ w); try done.
    destruct (path_exists _ _); [destruct (next_candidate _ _ _)|]; by eexists. }
  unfold finished in Hfin.
  destruct (at_ wj) as [|l|l c k|l c|l c| |] eqn:Hat; try done.
  - exists j, Succeeds. unfold step. rewrite Hj, Hat.
    destruct (lock_for _ _). case_decide; by eexists.
  - destruct (decide (l ∈ held s)) as [Hin|Hnin].
    + destruct (Hholder l Hin) as (i & w & Hw & Hl). exists i, (Fails (OSError "")).
      apply (Hcrit i w); [done | by eexists].
    + exists j, Succeeds. unfold step. rewrite Hj, Hat. rewrite decide_False by done.
      by eexists.
  - exists j, (Fails (OSError "")). apply (Hcrit j wj); [done|]. rewrite Hat. by eexists.
  - exists j, (Fails (OSError "")). apply (Hcrit j wj); [done|]. rewrite Hat. by eexists.
  - exists j, (Fails (OSError "")). apply (Hcrit j wj); [done|]. rewrite Hat. by eexists.
Qed.

End scheduling.

(** ** Failures of one copy *)

Lemma first_raised_none ws :
  first_raised ws = None ↔ ∀ j w e, ws !! j = Some w → at_ w ≠ Raised e.
Proof.
  induction ws as [|w ws IH]; simpl.
  - split; [by intros _ j w e | done].
  - destruct (at_ w) eqn:Hat; rewrite ?IH; (split; [intros H [|j] w' e' | intros H]);
      try by (simpl; intros [= <-]; rewrite Hat).
    all: try by (simpl; eauto).
    all: try by (intros j w' e'; apply (H (S j))).
    exfalso. by eapply (H 0 w). 
Qed.


(** An exception that is not an [OSError] is not caught by line 100: it
    leaves [copy_file] and reaches [gather]. *)
Example other_exception_leaves_copy_file :
  let src := Path "/" ["src"; "a.txt"] in
  let dst := Path "/" ["dist"; "txt"; "a.txt"] in
  let s := System ∅ empty_registry {[0]} []
             [Worker src (Path "/" ["dist"]) (Copying 0 dst)] in
  (s' ← step s 0 (Fails (OtherException "cancelled")); Some (tasks s', gather s'))
  = Some ([Worker src (Path "/" ["dist"]) (Raised (OtherException "cancelled"))],
          Some (Raise (OtherException "cancelled"))).
Proof. reflexivity. Qed.


(** ** What the workers do to the file system *)

Section files.

Lemma make_dirs_lookup (fs : gmap path fs_node) (l : list path) q :
  foldr (λ q m, <[q := Dir]> m) fs l !! q
  = if decide (q ∈ l) then Some Dir else fs !! q.
Proof.
  induction l as [|a l IH]; simpl; [done|].
  rewrite lookup_insert. destruct (decide (a = q)) as [->|Hne].
  - by rewrite decide_True by set_solver.
  - rewrite IH. destruct (decide (q ∈ l)).
    + by rewrite decide_True by set_solver.
    + by rewrite decide_False by set_solver.
Qed.

Lemma mkdir_parents_lookup (fs fs' : gmap path fs_node) p q :
  mkdir_parents fs p = Some fs' →
  fs' !! q = if decide (q ∈ dirs_upto p) then Some Dir else fs !! q.
Proof.
  unfold mkdir_parents. destruct (existsb _ _); [done|].
  intros [= <-]. apply make_dirs_lookup.
Qed.

(** [mkdir] changes nothing that exists. *)
Lemma mkdir_parents_keeps (fs fs' : gmap path fs_node) p q x :
  mkdir_parents fs p = Some fs' → fs !! q = Some x → fs' !! q = Some x.
Proof.
  intros Hm Hq. rewrite (mkdir_parents_lookup _ _ _ _ Hm).
  case_decide as Hin; [|done].
  unfold mkdir_parents in Hm. destruct (existsb _ _) eqn:Hex; [done|].
  destruct x as [d|]; [|done]. exfalso.
  assert (existsb (is_file_at fs) (dirs_upto p) = true) as Htrue; [|congruence].
  apply existsb_exists. exists q. split; [by apply list_elem_of_In|].
  unfold is_file_at. by rewrite Hq.
Qed.

Lemma dirs_upto_short p q :
  q ∈ dirs_upto p → length (names q) ≤ length (names p).
Proof.
  unfold dirs_upto. intros (k & -> & Hk)%list_elem_of_fmap.
  simpl. rewrite length_take. lia.
Qed.

Lemma copyfile_inv (fs fs' : gmap path fs_node) src dst :
  copyfile fs src dst = Some fs' →
  ∃ data, fs !! src = Some (File data) ∧ src ≠ dst ∧ fs !! dst ≠ Some Dir ∧
          fs' = <[dst := File data]> fs.
Proof.
  unfold copyfile. destruct (fs !! src) as [[data|]|] eqn:Hsrc; try done.
  case_decide; [done|]. destruct (fs !! dst) as [[d|]|] eqn:Hdst; try done;
    intros [= <-]; by exists data.
Qed.

(** Nothing a coroutine does removes a path. *)
Lemma transition_grows s w o p fs' r' h' q :
  transition s w o p fs' r' h' → is_Some (fsys s !! q) → is_Some (fs' !! q).
Proof.
  intros Ht [x Hq]. destruct Ht; try by eexists.
  - exists x. by eapply mkdir_parents_keeps.
  - match goal with H : copyfile _ _ _ = _ |- _ =>
      apply copyfile_inv in H as (data & _ & _ & _ & ->) end.
    rewrite lookup_insert. case_decide; by eexists.
Qed.

End files.

(** ** Destinations under a schedule *)

Section destinations.

Lemma dest_of_cases q c :
  dest_of q = Some c → is_Some (lock_of q) ∨ q = Done (Some c).
Proof. destruct q as [| | | | |[]|]; simpl; intros [= <-]; eauto. Qed.

(** A coroutine keeps the destination it has, or settles on a path that
    does not exist while it holds its lock; once it has copied, the
    destination exists. *)
Lemma transition_dest s w o p fs' r' h' :
  transition s w o p fs' r' h' →
  (∀ c, p = Done (Some c) → is_Some (fs' !! c)) ∧
  (∀ c, dest_of p = Some c →
     dest_of (at_ w) = Some c ∨ (is_Some (lock_of (at_ w)) ∧ fsys s !! c = None)).
Proof.
  intros Ht. destruct Ht as [| | | | |l c k Hat Hfree| l c fs1 Hat _ _
                            | l c fs1 Hat _ Hcopy | l c e Hat _];
    try (split; intros; simplify_eq/=; done).
  - split; [done|]. intros c' [= <-]. right. rewrite Hat. split; [by eexists|].
    unfold path_exists in Hfree. apply bool_decide_eq_false in Hfree.
    by apply eq_None_not_Some.
  - split; [done|]. intros c' [= <-]. left. by rewrite Hat.
  - apply copyfile_inv in Hcopy as (data & _ & _ & _ & ->). split.
    + intros c' [= <-]. rewrite lookup_insert_eq. by eexists.
    + intros c' [= <-]. left. by rewrite Hat.
  - destruct (is_OSError e); split; intros; simplify_eq/=; done.
Qed.

Lemma dests_ok_step s i o s' :
  locks_ok s → dests_ok s → step s i o = Some s' → dests_ok s'.
Proof.
  intros Hlocks [Hexists Hdistinct] (w & p & Hw & Ht & Htasks)%step_transition.
  destruct (transition_dest _ _ _ _ _ _ _ Ht) as [Hdone Hdest].
  assert (∀ j wj c, j ≠ i → tasks s !! j = Some wj →
            lock_key (file w) = lock_key (file wj) →
            dest_of p = Some c → dest_of (at_ wj) = Some c → False) as Hnew.
  { intros j wj c Hne Hj Hkey Hp Hc. destruct (Hdest c Hp) as [Hold|[[l Hl] Hfree]].
    - apply Hne. symmetry. by eapply (Hdistinct i j w wj c).
    - destruct (dest_of_cases _ _ Hc) as [[lj Hlj]|Hdn].
      + apply Hne. symmetry. by eapply (mutual_exclusion s i j w wj l lj).
      + destruct (Hexists j wj c Hj Hdn) as [x Hx]. congruence. }
  split; rewrite Htasks.
  - intros j wj c Hj Hat.
    destruct (move_cases _ _ _ _ _ _ Hw Hj) as [[-> ->]|[Hne Hj']].
    + by apply Hdone.
    + eapply transition_grows; [done|]. by eapply Hexists.
  - intros j1 j2 w1 w2 c H1 H2 Hkey Hc1 Hc2.
    destruct (move_cases _ _ _ _ _ _ Hw H1) as [[-> ->]|[Hne1 H1']];
      destruct (move_cases _ _ _ _ _ _ Hw H2) as [[-> ->]|[Hne2 H2']]; simpl in *.
    + done.
    + by destruct (Hnew j2 w2 c).
    + by destruct (Hnew j1 w1 c).
    + by eapply Hdistinct.
Qed.

Lemma candidates_ok_step s i o s' :
  candidates_ok s → step s i o = Some s' → candidates_ok s'.
Proof.
  intros Hcand (w & p & Hw & Ht & Htasks)%step_transition j wj.
  rewrite Htasks. intros Hj.
  destruct (move_cases _ _ _ _ _ _ Hw Hj) as [[-> ->]|[Hne Hj']];
    [|by apply (Hcand j wj)].
  specialize (Hcand i w Hw). simpl.
  destruct Ht as [l r Hat | l r Hat | l Hat | l c k c' Hat _ Hnext | l c k e Hat
                 | l c k Hat | l c fs1 Hat | l c fs1 Hat | l c e Hat];
    try (destruct Hat as [Hat|Hat]); rewrite Hat in Hcand; simpl in *; try done.
  - by rewrite Hcand.
  - intros c' [= <-]. by exists k.
  - destruct (is_OSError e); done.
  - destruct (is_OSError e); done.
Qed.

(** The three invariants together. *)
Lemma reached_ok fs r lg files dest schedule s :
  registry_ok r → run (spawn fs r lg files dest) schedule = Some s →
  locks_ok s ∧ dests_ok s ∧ candidates_ok s.
Proof.
  intros Hr. apply (run_invariant (λ s, locks_ok s ∧ dests_ok s ∧ candidates_ok s)).
  - intros s1 i o s2 (H1 & H2 & H3) Hstep. split_and!.
    + by eapply locks_ok_step.
    + by eapply dests_ok_step.
    + by eapply candidates_ok_step.
  - split_and!.
    + by apply locks_ok_spawn.
    + split.
      * by intros i w c (_ & _ & ->)%spawned_task.
      * by intros i j wi wj c (_ & _ & ->)%spawned_task.
    + intros i w (_ & _ & ->)%spawned_task. done.
Qed.

End destinations.

(** ** Two files with one lower-cased name *)

Section twins.
Import Pathlib PathlibFacts.

Lemma counter_path_same_name fi fj dest k :
  name fi = name fj → counter_path fi dest k = counter_path fj dest k.
Proof.
  intros Hn. unfold counter_path, category, counter_name, suffix, stem.
  by rewrite Hn.
Qed.

(** The stem of a counter name, for a file with an extension. *)
Lemma counter_name_stem file k :
  valid_name (name file) → suffix file ≠ "" →
  name_stem (counter_name file k)
  = match k with 0 => stem file | S _ => indexed_stem (stem file) k end.
Proof.
  intros Hvalid Hsfx. unfold counter_name, suffix, stem in *.
  destruct (name_cases (name file)) as [[Hs _] | (s & e & _ & Hs' & He & Hd & Hs & Hst)];
    [done|].
  rewrite Hs, Hst. destruct k as [|k].
  - by apply (name_split_ext s e).
  - apply name_split_ext; [|done..].
    apply nonempty_length. pose proof (indexed_stem_length s (S k)). lia.
Qed.

Lemma counter_paths_differ_by_counter file dest k k' :
  valid_name (name file) → PyStr.endswith "." (name file) = false →
  suffix file ≠ "" →
  differ_by_counter (counter_path file dest k) (counter_path file dest k').
Proof.
  intros Hvalid Hdot Hsfx.
  assert (∀ j, name_suffix (counter_name file j) = suffix file) as Hsuffix.
  { intros [|j]; [by apply counter_name_suffix_0 | by apply counter_name_suffix]. }
  assert (∀ j, suffix (counter_path file dest j) = suffix file) as Hsuf.
  { intros j. unfold suffix at 1, counter_path. by rewrite name_snoc2. }
  assert (∀ j, stem (counter_path file dest j)
               = match j with 0 => stem file | S _ => indexed_stem (stem file) j end)
    as Hstem.
  { intros j. unfold stem at 1, counter_path. rewrite name_snoc2.
    by apply counter_name_stem. }
  unfold differ_by_counter. rewrite !Hsuf, !Hstem. split_and!.
  - unfold counter_path. by rewrite !parent_snoc2.
  - done.
  - exists (stem file). split; [destruct k | destruct k']; eauto.
Qed.

Lemma short_not_indexed s base n : String.length s < 3 → s ≠ indexed_stem base n.
Proof. intros Hlen ->. pose proof (indexed_stem_length base n). lia. Qed.




End twins.

(** ** Runs with distinct destinations *)

Section targets.
Import Pathlib PathlibFacts.

Context (fs0 : gmap path fs_node) (files : list path) (dest : path) (n : nat).
Hypothesis Hbound : bound_for fs0 files dest n.

Lemma counter_path_length f k :
  length (names (counter_path f dest k)) = length (names dest) + 2.
Proof. unfold counter_path. simpl. rewrite length_app. simpl. lia. Qed.

(** A folder made for one destination is no destination. *)
Lemma dirs_not_target f k g q :
  q ∈ dirs_upto (parent (counter_path f dest k)) → q ≠ counter_path g dest n.
Proof.
  intros Hq%dirs_upto_short ->. rewrite counter_path_length in Hq.
  unfold counter_path in Hq. rewrite parent_snoc2 in Hq. simpl in Hq.
  rewrite length_app in Hq. simpl in Hq. lia.
Qed.

Lemma targets_distinct i j fi fj :
  files !! i = Some fi → files !! j = Some fj →
  counter_path fi dest n = counter_path fj dest n → i = j.
Proof.
  destruct Hbound as (_ & _ & _ & _ & Hnd & _). intros Hi Hj Heq.
  eapply (NoDup_lookup _ i j); [exact Hnd|..].
  - by rewrite list_lookup_fmap, Hi.
  - rewrite list_lookup_fmap, Hj. simpl. by rewrite Heq.
Qed.

Lemma targets_ok_spawn r lg : targets_ok fs0 files dest n (spawn fs0 r lg files dest).
Proof.
  destruct Hbound as (_ & _ & _ & Hfree & _ & _). split_and!.
  - intros i w Hw. apply spawned_task in Hw. naive_solver.
  - by intros i w (_ & _ & ->)%spawned_task.
  - intros i w (Hf & _ & _)%spawned_task _. simpl. apply Hfree.
    by eapply list_elem_of_lookup_2.
  - done.
  - simpl. intros p -> [? ?]. done.
Qed.

Lemma targets_ok_step s i o s' :
  targets_ok fs0 files dest n s → step s i o = Some s' →
  targets_ok fs0 files dest n s'.
Proof.
  destruct Hbound as (Hn & Hvalid & Hbefore & Hfree & Hnd & Hread).
  intros (Hfiles & Hat & Hnone & Hkeep & Hnew) Hstep.
  pose proof (step_files _ _ _ _ Hstep) as Hsame.
  destruct (step_transition _ _ _ _ Hstep) as (w & p & Hw & Ht & Htasks).
  destruct (Hfiles i w Hw) as [Hfw Hdw].
  assert (file w ∈ files) as Hin by (by eapply list_elem_of_lookup_2).
  pose proof (Hat i w Hw) as Hati.
  assert (∀ j wj, tasks s' !! j = Some wj → files !! j = Some (file wj) ∧ folder wj = dest)
    as Hfiles'.
  { intros j wj Hj. rewrite Htasks in Hj.
    destruct (move_cases _ _ _ _ _ _ Hw Hj) as [[-> ->]|[Hne Hj']]; [done|by apply Hfiles]. }
  assert (∀ j wj, j ≠ i → tasks s !! j = Some wj →
            counter_path (file wj) dest n ≠ counter_path (file w) dest n) as Hother.
  { intros j wj Hne Hj Heq. apply Hne.
    destruct (Hfiles j wj Hj) as [Hfj _]. by eapply targets_distinct. }
  (* the cases that leave the file system alone *)
  assert (fsys s' = fsys s →
          (match p with
           | Probing _ c k => k ≤ n ∧ c = counter_path (file w) dest k
           | MakingDir _ c | Copying _ c => c = counter_path (file w) dest n
           | Done (Some _) => False
           | _ => True
           end) →
          targets_ok fs0 files dest n s') as Hquiet.
  { intros Hfs Hp. split_and!; [done|..]; rewrite ?Hfs, ?Htasks.
    - intros j wj Hj.
      destruct (move_cases _ _ _ _ _ _ Hw Hj) as [[-> ->]|[Hne Hj']].
      + simpl. by destruct p as [| | | | |[]|].
      + by apply (Hat j wj).
    - intros j wj Hj Hcp.
      destruct (move_cases _ _ _ _ _ _ Hw Hj) as [[-> ->]|[Hne Hj']].
      + simpl. apply (Hnone i w Hw). unfold copied.
        destruct (at_ w) as [| | | | |[]|] eqn:Ew; try done.
        exfalso. clear -Ht Ew.
        destruct Ht as [? ? E|? ? E|? E|? ? ? ? E|? ? ? ? E|? ? ? E|? ? ? E|? ? ? E
                       |? ? ? [E|E]]; congruence.
      + by apply (Hnone j wj).
    - done.
    - done. }
  assert (initial_candidate (file w) (folder w) = counter_path (file w) dest 0) as Hinit
    by (rewrite Hdw; apply initial_candidate_counter; by apply Hvalid).
  remember (fsys s') as fs' eqn:Efs. remember (reg s') as r' eqn:Er.
  remember (held s') as h' eqn:Eh.
  destruct Ht as [l r Ew | l r Ew | l Ew | l c k c' Ew Hex Hnext | l c k e Ew
                 | l c k Ew Hex | l c fs1 Ew _ Hmk | l c fs1 Ew _ Hcp | l c e Ew _].
  - by apply Hquiet.
  - apply Hquiet; [done|]. rewrite Hinit. split; [lia|done].
  - apply Hquiet; [done|]. rewrite Hinit. split; [lia|done].
  - apply Hquiet; [done|]. rewrite Ew in Hati. destruct Hati as [Hk ->].
    assert (k < n) as Hlt.
    { destruct (decide (k = n)) as [->|]; [|lia]. exfalso.
      unfold path_exists in Hex. apply bool_decide_eq_true in Hex as [x Hx].
      rewrite (Hnone i w Hw) in Hx; [done|]. unfold copied. by rewrite Ew. }
    rewrite next_counter in Hnext; [|by apply Hvalid|right; lia].
    injection Hnext as <-. split; [lia|done].
  - by apply Hquiet.
  - apply Hquiet; [done|]. rewrite Ew in Hati. destruct Hati as [Hk ->].
    destruct (decide (k = n)) as [->|Hne]; [done|]. exfalso.
    destruct (Hbefore (file w) k Hin ltac:(lia)) as [x Hx].
    apply Hkeep in Hx. unfold path_exists in Hex.
    apply bool_decide_eq_false in Hex. apply Hex. by eexists.
  - (* mkdir *)
    rewrite Ew in Hati. subst c. split_and!; [done|..]; rewrite <-?Efs, ?Htasks.
    + intros j wj Hj.
      destruct (move_cases _ _ _ _ _ _ Hw Hj) as [[-> ->]|[Hne Hj']]; [done|].
      specialize (Hat j wj Hj'). destruct (at_ wj) as [| | | | |[c|]|]; try done.
      destruct Hat as [-> (data & Hsrc & Hdst)]. split; [done|].
      exists data. split; [done|]. by eapply mkdir_parents_keeps.
    + intros j wj Hj Hcp.
      assert (fsys s !! counter_path (file wj) dest n = None) as Hbefore'.
      { destruct (move_cases _ _ _ _ _ _ Hw Hj) as [[-> ->]|[Hne Hj']].
        - simpl. apply (Hnone i w Hw). unfold copied. by rewrite Ew.
        - by apply (Hnone j wj). }
      rewrite (mkdir_parents_lookup _ _ _ _ Hmk). case_decide as Hd; [|done].
      by apply (dirs_not_target _ _ (file wj)) in Hd.
    + intros q x Hq. eapply mkdir_parents_keeps; [done|]. by apply Hkeep.
    + intros q Hq0 Hq. rewrite (mkdir_parents_lookup _ _ _ _ Hmk) in Hq.
      case_decide as Hd; [|by apply Hnew]. left.
      apply dirs_upto_short in Hd. unfold counter_path in Hd.
      rewrite parent_snoc2 in Hd. simpl in Hd. rewrite length_app in Hd.
      simpl in Hd. lia.
  - (* copyfile *)
    rewrite Ew in Hati. subst c.
    apply copyfile_inv in Hcp as (data & Hsrc & Hne & Hnd' & ->).
    destruct (Hread (file w) Hin) as [data0 Hsrc0].
    assert (data0 = data) as -> by (apply Hkeep in Hsrc0; congruence).
    split_and!; [done|..]; rewrite <-?Efs, ?Htasks.
    + intros j wj Hj.
      destruct (move_cases _ _ _ _ _ _ Hw Hj) as [[-> ->]|[Hne' Hj']].
      * simpl. split; [done|]. exists data. by rewrite lookup_insert_eq.
      * specialize (Hat j wj Hj'). destruct (at_ wj) as [| | | | |[c|]|]; try done.
        destruct Hat as [-> (dj & Hsj & Hdj)]. split; [done|]. exists dj.
        split; [done|]. rewrite lookup_insert_ne; [done|].
        intros Heq. by apply (Hother j wj).
    + intros j wj Hj Hcp.
      destruct (move_cases _ _ _ _ _ _ Hw Hj) as [[-> ->]|[Hne' Hj']]; [done|].
      rewrite lookup_insert_ne; [by apply (Hnone j wj)|].
      intros Heq. by apply (Hother j wj).
    + intros q x Hq. rewrite lookup_insert_ne; [by apply Hkeep|].
      intros <-. rewrite (Hfree (file w) Hin) in Hq. done.
    + intros q Hq0 Hq. rewrite lookup_insert in Hq.
      case_decide as Hd; [|by apply Hnew]. right. by exists (file w).
  - apply Hquiet; [done|]. by destruct (is_OSError e).
Qed.

(** The invariant holds after every schedule. *)
Lemma targets_ok_run r lg schedule s :
  run (spawn fs0 r lg files dest) schedule = Some s → targets_ok fs0 files dest n s.
Proof.
  apply (run_invariant (targets_ok fs0 files dest n)).
  - intros *. apply targets_ok_step.
  - apply targets_ok_spawn.
Qed.

End targets.

(** ** Running the organiser twice *)

Section twice.
Import Pathlib PathlibFacts.

Lemma NoDup_pairs {A B} (f g : A → B) (l : list A) :
  NoDup (l ≫= λ x, [f x; g x]) →
  NoDup (f <$> l) ∧ NoDup (g <$> l) ∧ ∀ x y, x ∈ l → y ∈ l → f x ≠ g y.
Proof.
  induction l as [|a l IH]; simpl.
  - intros _. split_and!; [constructor..|]. by intros x y ?%elem_of_nil.
  - intros [Hfa [Hga Hrest]%NoDup_cons]%NoDup_cons.
    destruct (IH Hrest) as (Hf & Hg & Hfg).
    assert (∀ y, y ∈ l → f y ∈ l ≫= λ x, [f x; g x]) as Hinf.
    { intros y Hy. apply list_elem_of_bind. exists y. split; [|done]. set_solver. }
    assert (∀ y, y ∈ l → g y ∈ l ≫= λ x, [f x; g x]) as Hing.
    { intros y Hy. apply list_elem_of_bind. exists y. split; [|done]. set_solver. }
    split_and!.
    + apply NoDup_cons. split; [|done].
      intros (y & Hy & Hin)%list_elem_of_fmap. apply Hfa. rewrite Hy.
      apply elem_of_cons. right. by apply Hinf.
    + apply NoDup_cons. split; [|done].
      intros (y & Hy & Hin)%list_elem_of_fmap. apply Hga. rewrite Hy. by apply Hing.
    + intros x y [->|Hx]%elem_of_cons [->|Hy]%elem_of_cons Heq.
      * apply Hfa. rewrite Heq. set_solver.
      * apply Hfa. rewrite Heq. apply elem_of_cons. right. by apply Hing.
      * apply Hga. rewrite <-Heq. by apply Hinf.
      * by apply (Hfg x y).
Qed.

(** A run bound for the counter paths [n] in which every copy succeeded:
    each counter path [n] holds the data of its source, nothing that
    existed has changed, and nothing else was made but folders. *)
Lemma run_copied fs0 files dest n r lg schedule s :
  bound_for fs0 files dest n →
  run (spawn fs0 r lg files dest) schedule = Some s →
  forallb copied (tasks s) = true →
  (∀ f data, f ∈ files → fs0 !! f = Some (File data) →
     fsys s !! counter_path f dest n = Some (File data)) ∧
  (∀ p x, fs0 !! p = Some x → fsys s !! p = Some x) ∧
  (∀ p, fs0 !! p = None → is_Some (fsys s !! p) →
     length (names p) ≤ length (names dest) + 1 ∨
     ∃ f, f ∈ files ∧ p = counter_path f dest n).
Proof.
  intros Hbound Hrun Hall.
  destruct (targets_ok_run _ _ _ _ Hbound _ _ _ _ Hrun)
    as (Hfiles & Hat & _ & Hkeep & Hnew).
  split_and!; [|done..].
  intros f data [i Hi]%list_elem_of_lookup_1 Hsrc.
  pose proof (run_files _ _ _ Hrun) as Hsame.
  apply (f_equal (λ l, l !! i)) in Hsame. rewrite !list_lookup_fmap in Hsame.
  unfold spawn in Hsame. cbn [tasks] in Hsame.
  rewrite list_lookup_fmap, Hi in Hsame. simpl in Hsame.
  destruct (tasks s !! i) as [w|] eqn:Hw; [|done].
  injection Hsame as Hf _.
  rewrite forallb_forall in Hall.
  specialize (Hall w ltac:(apply list_elem_of_In; by eapply list_elem_of_lookup_2)).
  specialize (Hat i w Hw). unfold copied in Hall.
  destruct (at_ w) as [| | | | |[c|]|]; try done.
  destruct Hat as [-> (d & Hd & Hc)]. rewrite Hf in *. congruence.
Qed.




End twice.

(** ** Every schedule ends *)

Section termination.
Import Pathlib PathlibFacts.

Lemma sum_insert {A} (f : A → nat) (l : list A) i x y :
  l !! i = Some x →
  sum_list_with f (<[i := y]> l) + f x = sum_list_with f l + f y.
Proof.
  revert i. induction l as [|a l IH]; intros [|i]; simpl; try done.
  - intros [= ->]. lia.
  - intros Hi. specialize (IH i Hi). lia.
Qed.

Lemma sum_bound {A} (f : A → nat) (l : list A) b :
  (∀ x, f x ≤ b) → sum_list_with f l ≤ length l * b.
Proof. intros Hb. induction l as [|a l IH]; simpl; [lia|]. specialize (Hb a). lia. Qed.

Lemma size_make_dirs (fs : gmap path fs_node) (l : list path) :
  size (foldr (λ q m, <[q := Dir]> m) fs l) ≤ size fs + length l.
Proof.
  induction l as [|a l IH]; simpl; [lia|]. rewrite map_size_insert.
  destruct (_ !! a); simpl; lia.
Qed.

Lemma length_dirs_upto p : length (dirs_upto p) = length (names p).
Proof. unfold dirs_upto. by rewrite length_fmap, length_seq. Qed.

Lemma initial_budget P dest (l : list path) :
  sum_list_with (λ w, budget P (at_ w)) ((λ f, Worker f dest Start) <$> l)
  = length l * (P + 5).
Proof. induction l as [|f l IH]; csimpl; [done|]. rewrite IH. lia. Qed.

Context (fs0 : gmap path fs_node) (files : list path) (dest : path).
Hypothesis Hvalid : ∀ f, f ∈ files → valid_name (name f).
Hypothesis Hdot : ∀ f, f ∈ files → PyStr.endswith "." (name f) = false.

Lemma spent_bound p : spent dest p ≤ length (names dest) + 2.
Proof. destruct p; simpl; lia. Qed.

(** A step keeps the bounds and uses up budget. *)
Lemma bounded_ok_step s i o s' :
  bounded_ok fs0 files dest s → step s i o = Some s' →
  bounded_ok fs0 files dest s' ∧
  remaining (capacity fs0 files dest) s' < remaining (capacity fs0 files dest) s.
Proof.
  intros (Hfiles & Hlen & Hat & Hsize) Hstep.
  destruct (step_transition _ _ _ _ Hstep) as (w & p & Hw & Ht & Htasks).
  destruct (Hfiles i w Hw) as [Hin Hdw].
  pose proof (Hat i w Hw) as Hati.
  assert (∀ q, is_Some (fsys s !! q) → is_Some (fsys s' !! q)) as Hgrow
    by (intros q; by eapply transition_grows).
  assert (size (fsys s) ≤ capacity fs0 files dest) as Hcap.
  { etrans; [exact Hsize|]. unfold capacity. rewrite <-Hlen.
    apply Nat.add_le_mono_l, sum_bound. intros x. apply spent_bound. }
  set (P := capacity fs0 files dest) in *.
  assert ((match p with
           | Probing _ c k =>
               c = counter_path (file w) dest k ∧
               ∀ k', k' < k → is_Some (fsys s' !! counter_path (file w) dest k')
           | MakingDir _ c | Copying _ c => ∃ k, c = counter_path (file w) dest k
           | _ => True
           end) ∧
          size (fsys s') + spent dest (at_ w) ≤ size (fsys s) + spent dest p ∧
          budget P p < budget P (at_ w)) as (Hp & Hspent & Hbudget).
  { assert (initial_candidate (file w) (folder w) = counter_path (file w) dest 0)
      as Hinit by (rewrite Hdw; apply initial_candidate_counter; by apply Hvalid).
    remember (fsys s') as fs' eqn:Efs. remember (reg s') as r' eqn:Er.
    remember (held s') as h' eqn:Eh. clear Hgrow.
    destruct Ht as [l r Ew | l r Ew | l Ew | l c k c' Ew Hex Hnext | l c k e Ew
                   | l c k Ew Hex | l c fs1 Ew _ Hmk | l c fs1 Ew _ Hcp | l c e Ew];
      try rewrite Ew in *; simpl.
    - split; [done|split; lia].
    - split; [split; [done|intros; lia]|split; lia].
    - split; [split; [done|intros; lia]|split; lia].
    - destruct Hati as [-> Hfound].
      rewrite next_counter in Hnext; [|by apply Hvalid|left; by apply Hdot].
      injection Hnext as <-.
      assert (∀ k', k' < S k → is_Some (fsys s !! counter_path (file w) dest k'))
        as Hfound'.
      { intros k' Hk'. destruct (decide (k' = k)) as [->|]; [|apply Hfound; lia].
        unfold path_exists in Hex. by apply bool_decide_eq_true in Hex. }
      assert (S k ≤ size (fsys s)) as Hk.
      { apply (taken_bound (fsys s) (counter_path (file w) dest)).
        - intros a b. apply counter_path_inj.
        - intros k' Hk'. unfold path_exists. apply bool_decide_eq_true.
          by apply Hfound'. }
      split; [done|split; lia].
    - split; [done|split; lia].
    - destruct Hati as [-> _]. split; [by eexists|split; lia].
    - destruct Hati as [k ->]. split; [by eexists|split; [|lia]].
      unfold mkdir_parents in Hmk. destruct (existsb _ _); [done|].
      injection Hmk as <-.
      pose proof (size_make_dirs (fsys s)
                    (dirs_upto (parent (counter_path (file w) dest k)))) as Hsz.
      rewrite length_dirs_upto in Hsz. unfold counter_path in Hsz.
      rewrite parent_snoc2 in Hsz. simpl in Hsz. rewrite length_app in Hsz.
      simpl in Hsz. unfold counter_path. rewrite parent_snoc2. lia.
    - apply copyfile_inv in Hcp as (data & _ & _ & _ & ->). split; [done|split; [|lia]].
      rewrite map_size_insert. destruct (_ !! c); simpl; lia.
    - destruct Ew as [Ew|Ew]; rewrite Ew; destruct (is_OSError e); simpl;
        (split; [done|split; lia]). }
  split.
  - split_and!; rewrite ?Htasks.
    + intros j wj Hj.
      destruct (move_cases _ _ _ _ _ _ Hw Hj) as [[-> ->]|[Hne Hj']]; [done|].
      by apply (Hfiles j wj).
    + unfold move. by rewrite length_insert.
    + intros j wj Hj.
      destruct (move_cases _ _ _ _ _ _ Hw Hj) as [[-> ->]|[Hne Hj']]; [done|].
      specialize (Hat j wj Hj'). destruct (at_ wj); try done.
      destruct Hat as [-> Hfound]. split; [done|]. intros k' Hk'.
      by apply Hgrow, Hfound.
    + unfold move.
      pose proof (sum_insert (λ w, spent dest (at_ w)) (tasks s) i w
                    (Worker (file w) (folder w) p) Hw) as Hsum.
      simpl in Hsum. lia.
  - unfold remaining. rewrite Htasks. unfold move.
    pose proof (sum_insert (λ w, budget P (at_ w)) (tasks s) i w
                  (Worker (file w) (folder w) p) Hw) as Hsum.
    simpl in Hsum. lia.
Qed.

Lemma bounded_ok_spawn r lg : bounded_ok fs0 files dest (spawn fs0 r lg files dest).
Proof.
  split_and!.
  - intros i w (Hf & Hd & _)%spawned_task. split; [|done].
    by eapply list_elem_of_lookup_2.
  - simpl. by rewrite length_fmap.
  - by intros i w (_ & _ & ->)%spawned_task.
  - simpl. lia.
Qed.

Lemma run_bounded schedule : ∀ s s',
  bounded_ok fs0 files dest s → run s schedule = Some s' →
  length schedule + remaining (capacity fs0 files dest) s'
    ≤ remaining (capacity fs0 files dest) s.
Proof.
  induction schedule as [|[i o] rest IH]; intros s s' Hok; simpl.
  - intros [= <-]. lia.
  - destruct (step s i o) as [s1|] eqn:Hstep; [|done]. intros Hrun.
    destruct (bounded_ok_step _ _ _ _ Hok Hstep) as [Hok1 Hlt].
    specialize (IH s1 s' Hok1 Hrun). lia.
Qed.

(** No schedule is longer than the budget of the spawned coroutines:
    the probing loops end, whatever the other coroutines do. *)
Lemma every_schedule_ends r lg schedule s :
  run (spawn fs0 r lg files dest) schedule = Some s →
  length schedule ≤ length files * (capacity fs0 files dest + 5).
Proof.
  intros Hrun.
  pose proof (run_bounded schedule _ _ (bounded_ok_spawn r lg) Hrun) as Hle.
  unfold remaining at 2 in Hle. unfold spawn in Hle. cbn [tasks] in Hle.
  rewrite initial_budget in Hle. lia.
Qed.

(** A state in which no coroutine can run is one in which all have
    finished: [gather] has its answer. *)
Lemma quiescent_finished s :
  locks_ok s → (∀ i o, step s i o = None) →
  ∀ j w, tasks s !! j = Some w → finished w = true.
Proof.
  intros Hlocks Hstuck j w Hj. destruct (finished w) eqn:Hfin; [done|].
  destruct (progress s j w Hlocks Hj Hfin) as (i & o & [s' Hs']).
  by rewrite Hstuck in Hs'.
Qed.

End termination.

(** ** More on the namer *)

Section namer_any.
Import Pathlib PathlibFacts.

(** The loop leaves at a candidate that does not exist, after the
    candidates before it were all found. *)
Lemma probe_loop_stops fs file dest fuel : ∀ c k p,
  candidate file dest k = Return c →
  probe_loop fuel fs (stem file) c k = Some (Return p) →
  ∃ n, k ≤ n ∧ n < k + fuel ∧ candidate file dest n = Return p ∧
       path_exists fs p = false ∧
       ∀ j, k ≤ j → j < n →
         ∃ c', candidate file dest j = Return c' ∧ path_exists fs c' = true.
Proof.
  induction fuel as [|fuel IH]; intros c k p Hc; simpl; [done|].
  destruct (path_exists fs c) eqn:Hex.
  - destruct (next_candidate (stem file) c k) as [c'|e] eqn:Hnext; [|done].
    intros Hloop.
    assert (candidate file dest (S k) = Return c') as Hc'
      by (simpl; rewrite Hc; exact Hnext).
    destruct (IH c' (S k) p Hc' Hloop) as (n & Hkn & Hn & Hp & Hfree & Hbefore).
    exists n. split_and!; [lia|lia|done|done|].
    intros j Hj1 Hj2. destruct (decide (j = k)) as [->|Hne].
    + by exists c.
    + apply Hbefore; lia.
  - intros [= <-]. exists k. split_and!; [lia|lia|done|done|]. intros; lia.
Qed.

Lemma with_name_parent p n q : with_name p n = Return q → parent q = parent p.
Proof.
  unfold with_name. repeat case_decide; try done. intros [= <-].
  unfold parent. simpl. by rewrite removelast_last.
Qed.

Lemma candidate_parent file dest k c :
  valid_name (name file) → candidate file dest k = Return c →
  parent c = Path (root dest) (names dest ++ [category file]).
Proof.
  intros Hvalid. revert c. induction k as [|k IH]; intros c; simpl.
  - rewrite initial_candidate_counter by done. intros [= <-].
    unfold counter_path. by rewrite parent_snoc2.
  - destruct (candidate file dest k) as [c0|e]; [|done]. simpl.
    unfold next_candidate, with_stem. intros Hn%with_name_parent.
    rewrite Hn. by apply IH.
Qed.

End namer_any.

(** X1. Whatever the file, a path [file_path_build] returns does not
    exist in the file system it probed, it is the value of
    [new_file_name] after some number of renamings, and every earlier
    value exists: the loop stops at the first free candidate. For a file
    with a valid name the path lies in the category folder of the
    destination. *)
Theorem file_path_build_stops_at_first_free
    (fuel : nat) (fs : gmap path fs_node) (file dest p : path) :
  file_path_build fuel fs file dest = Some (Return p) →
  path_exists fs p = false ∧
  (∃ n, n < fuel ∧ candidate file dest n = Return p ∧
        ∀ j, j < n → ∃ c, candidate file dest j = Return c ∧ path_exists fs c = true) ∧
  (valid_name (Pathlib.name file) →
     Pathlib.parent p = Path (root dest) (names dest ++ [category file])).
Proof.
  intros Hbuild. unfold file_path_build in Hbuild.
  destruct (probe_loop_stops fs file dest fuel _ 0 p eq_refl Hbuild)
    as (n & _ & Hn & Hp & Hfree & Hbefore).
  split_and!; [done| |].
  - exists n. split_and!; [lia|done|]. intros j Hj. apply Hbefore; lia.
  - intros Hvalid. by eapply candidate_parent.
Qed.

Lemma file_path_build_stops_at_first_free_witness :
  let fs : gmap path fs_node :=
    {[Path "/" ["dist"; "txt"; "a.txt"] := File "old"]} in
  path_exists fs (Path "/" ["dist"; "txt"; "a (1).txt"]) = false.
Proof.
  intros fs.
  apply (file_path_build_stops_at_first_free 2 fs (Path "/" ["src"; "a.txt"])
           (Path "/" ["dist"]) (Path "/" ["dist"; "txt"; "a (1).txt"])).
  vm_compute. reflexivity.
Defined.



(** ** More on the path resolver *)

Lemma join_empty p : p // Pathlib.parse "" = p.
Proof. destruct p as [r l]. unfold Pathlib.join. simpl. by rewrite app_nil_r. Qed.

(** X3. A path object is never rejected: line 29 only catches the empty
    string (and [None]), so the empty path object resolves to the
    directory it is joined onto. And the resolver is idempotent: what it
    returned for a working directory that is absolute, it returns
    unchanged when given it again, with any base. *)
Theorem get_absolute_path_of_paths
    (cwd cwd' : path) (x : path_like) (q : path) (base base' : option path_like) :
  Pathlib.is_absolute cwd = true →
  returns (get_absolute_path cwd (PObj q) base) = true ∧
  get_absolute_path cwd (PObj (Pathlib.parse "")) None = Return cwd ∧
  (∀ p, get_absolute_path cwd x None = Return p →
        Pathlib.is_absolute p = true ∧
        get_absolute_path cwd' (PObj p) base' = Return p).
Proof.
  intros Hcwd. split_and!.
  - unfold get_absolute_path. simpl. by destruct (Pathlib.is_absolute q).
  - unfold get_absolute_path. simpl. by rewrite join_empty.
  - intros p Hp.
    assert (Pathlib.is_absolute p = true) as Habs.
    { unfold get_absolute_path in Hp. destruct (path_like_truthy x); [|done].
      simpl in Hp. destruct (Pathlib.is_absolute (to_path x)) eqn:Hx.
      - by injection Hp as <-.
      - injection Hp as <-. by apply join_absolute. }
    split; [done|]. unfold get_absolute_path. simpl. by rewrite Habs.
Qed.

Lemma get_absolute_path_of_paths_witness :
  get_absolute_path (Path "/" ["tmp"]) (PObj (Path "/" ["home"; "src"])) (Some (PStr "x"))
    = Return (Path "/" ["home"; "src"]).
Proof.
  destruct (get_absolute_path_of_paths (Path "/" ["home"]) (Path "/" ["tmp"])
              (PStr "src") (Path "" []) None (Some (PStr "x")) eq_refl)
    as (_ & _ & Hidem).
  exact (proj2 (Hidem (Path "/" ["home"; "src"]) eq_refl)).
Defined.

(** ** More on the lock registry *)

Section registry_size.

Lemma lock_for_known r k l :
  locks r !! k = Some l → lock_for r k = (l, r).
Proof. intros H. unfold lock_for. by rewrite H. Qed.

Lemma lookups_counts keys :
  next_lock (lookups keys) = size (locks (lookups keys)) ∧
  dom (locks (lookups keys)) = list_to_set keys.
Proof.
  induction keys as [|k keys [IHn IHd]] using rev_ind.
  - split; [done|]. simpl. by rewrite dom_empty_L.
  - rewrite lookups_snoc, list_to_set_app_L. simpl.
    unfold lock_for. destruct (locks (lookups keys) !! k) as [l|] eqn:Hk; simpl.
    + split; [done|]. rewrite IHd.
      assert (k ∈ dom (locks (lookups keys))) as Hin by (apply elem_of_dom; by eexists).
      rewrite IHd in Hin. set_solver.
    + split.
      * rewrite map_size_insert_None by done. by rewrite IHn.
      * rewrite dom_insert_L, IHd. set_solver.
Qed.

End registry_size.

(** X4. The registry holds one lock per distinct key looked up, no more:
    the number of locks created equals the number of distinct keys, the
    keys stored are exactly those looked up, and looking up a key again
    returns its lock without creating one or changing the registry. *)
Theorem registry_size_is_distinct_names (keys : list string) :
  next_lock (lookups keys) = size (list_to_set keys : gset string) ∧
  dom (locks (lookups keys)) = list_to_set keys ∧
  (∀ k, k ∈ keys →
     (lock_for (lookups keys) k).2 = lookups keys ∧
     locks (lookups keys) !! k = Some (lock_for (lookups keys) k).1).
Proof.
  destruct (lookups_counts keys) as [Hn Hd]. split_and!.
  - rewrite Hn, <-Hd. by rewrite size_dom.
  - done.
  - intros k Hk.
    assert (k ∈ dom (locks (lookups keys))) as Hin by (rewrite Hd; set_solver).
    apply elem_of_dom in Hin as [l Hl].
    by rewrite (lock_for_known _ _ _ Hl).
Qed.

Lemma registry_size_is_distinct_names_witness :
  (lock_for (lookups ["a.txt"; "b.txt"; "a.txt"]) "a.txt").2
    = lookups ["a.txt"; "b.txt"; "a.txt"].
Proof.
  destruct (registry_size_is_distinct_names ["a.txt"; "b.txt"; "a.txt"])
    as (_ & _ & Hknown).
  apply Hknown. apply elem_of_cons. by left.
Defined.

(** ** More on the coroutines *)

Section runs.

Lemma gather_answers s :
  forallb finished (tasks s) = true → is_Some (gather s).
Proof.
  intros Hall. unfold gather. destruct (first_raised _); [by eexists|].
  rewrite Hall. by eexists.
Qed.

Lemma finished_all s :
  (∀ j w, tasks s !! j = Some w → finished w = true) →
  forallb finished (tasks s) = true.
Proof.
  intros Hall. apply forallb_forall. intros w Hw%list_elem_of_In.
  apply list_elem_of_lookup_1 in Hw as [j Hj]. by eapply Hall.
Qed.

(** A directory stays a directory. *)
Lemma transition_keeps_dirs s w o p fs' r' h' q :
  transition s w o p fs' r' h' → fsys s !! q = Some Dir → fs' !! q = Some Dir.
Proof.
  intros Ht Hq. destruct Ht; try done.
  - by eapply mkdir_parents_keeps.
  - match goal with H : copyfile _ _ _ = _ |- _ =>
      apply copyfile_inv in H as (data & _ & _ & Hnd & ->) end.
    rewrite lookup_insert_ne; [done|]. intros <-. by rewrite Hq in Hnd.
Qed.

End runs.

(** X5. Mutual exclusion by name. In every state a schedule reaches, two
    different coroutines whose files have the same lower-cased name are
    never both inside [async with lock] (probing names, making the
    folder or copying). *)
Theorem one_coroutine_per_name_inside
    (fs : gmap path fs_node) (r : registry) (lg : log) (files : list path)
    (dest : path) (schedule : list (nat * io)) (s : system)
    (i j : nat) (wi wj : worker) :
  registry_ok r →
  run (spawn fs r lg files dest) schedule = Some s →
  tasks s !! i = Some wi → tasks s !! j = Some wj →
  lock_key (file wi) = lock_key (file wj) →
  is_Some (lock_of (at_ wi)) → is_Some (lock_of (at_ wj)) →
  i = j.
Proof.
  intros Hr Hrun Hi Hj Hkey [li Hli] [lj Hlj].
  pose proof (locks_ok_run _ _ _ _ _ _ _ Hr Hrun) as Hlocks.
  by eapply (mutual_exclusion s i j wi wj li lj).
Qed.

Lemma one_coroutine_per_name_inside_witness :
  let f1 := Path "/" ["src"; "x"; "A.txt"] in
  let f2 := Path "/" ["src"; "y"; "a.txt"] in
  let dest := Path "/" ["dist"] in
  ∃ s, run (spawn ∅ empty_registry [] [f1; f2] dest) [(0, Succeeds); (1, Succeeds)]
       = Some s ∧
       ∀ w1, tasks s !! 1 = Some w1 → lock_of (at_ w1) = None.
Proof.
  intros f1 f2 dest.
  destruct (run (spawn ∅ empty_registry [] [f1; f2] dest) [(0, Succeeds); (1, Succeeds)])
    as [s|] eqn:Hrun; [|by vm_compute in Hrun].
  assert (tasks s = [Worker f1 dest (Probing 0 (Path "/" ["dist"; "txt"; "A.txt"]) 0);
                     Worker f2 dest (Acquiring 0)]) as Htasks.
  { vm_compute in Hrun. injection Hrun as <-. reflexivity. }
  exists s. split; [reflexivity|]. intros w1 H1.
  destruct (lock_of (at_ w1)) as [l1|] eqn:Hl1; [|reflexivity]. exfalso.
  assert (0 = 1) as Heq; [|discriminate Heq].
  apply (one_coroutine_per_name_inside ∅ empty_registry [] [f1; f2] dest
           [(0, Succeeds); (1, Succeeds)] s 0 1
           (Worker f1 dest (Probing 0 (Path "/" ["dist"; "txt"; "A.txt"]) 0)) w1
           registry_ok_empty Hrun).
  - rewrite Htasks. reflexivity.
  - exact H1.
  - rewrite Htasks in H1. injection H1 as <-. reflexivity.
  - eexists. reflexivity.
  - eexists. exact Hl1.
Defined.

(** X6. No deadlock, and every lock is released. In every state a
    schedule reaches, while some coroutine has not finished some
    coroutine can run; a state in which none can run has every coroutine
    finished, [gather] has its answer, and no lock is locked. *)
Theorem no_deadlock_and_locks_released
    (fs : gmap path fs_node) (r : registry) (lg : log) (files : list path)
    (dest : path) (schedule : list (nat * io)) (s : system) :
  registry_ok r →
  run (spawn fs r lg files dest) schedule = Some s →
  (∀ j w, tasks s !! j = Some w → finished w = false →
     ∃ i o, is_Some (step s i o)) ∧
  ((∀ i o, step s i o = None) →
     forallb finished (tasks s) = true ∧ is_Some (gather s)) ∧
  (forallb finished (tasks s) = true → held s = ∅).
Proof.
  intros Hr Hrun.
  pose proof (locks_ok_run _ _ _ _ _ _ _ Hr Hrun) as Hlocks.
  split_and!.
  - intros j w Hj Hfin. by eapply progress.
  - intros Hstuck.
    assert (forallb finished (tasks s) = true) as Hall.
    { apply finished_all. intros j w Hj. destruct (finished w) eqn:Hfin; [done|].
      destruct (progress s j w Hlocks Hj Hfin) as (i & o & [s' Hs']).
      by rewrite Hstuck in Hs'. }
    split; [done | by apply gather_answers].
  - intros Hall. destruct Hlocks as (_ & _ & _ & _ & Hholder).
    apply elem_of_equiv_empty_L. intros l Hl.
    destruct (Hholder l Hl) as (i & w & Hw & Hlw).
    rewrite forallb_forall in Hall.
    specialize (Hall w ltac:(apply list_elem_of_In; by eapply list_elem_of_lookup_2)).
    unfold finished in Hall. by destruct (at_ w).
Qed.

Lemma no_deadlock_and_locks_released_witness :
  let f1 := Path "/" ["src"; "a.txt"] in
  let dest := Path "/" ["dist"] in
  let fs : gmap path fs_node := {[f1 := File "one"]} in
  ∃ s, run (spawn fs empty_registry [] [f1] dest)
         [(0, Succeeds); (0, Succeeds); (0, Succeeds); (0, Succeeds)] = Some s ∧
       held s = ∅.
Proof.
  intros f1 dest fs.
  destruct (run (spawn fs empty_registry [] [f1] dest)
              [(0, Succeeds); (0, Succeeds); (0, Succeeds); (0, Succeeds)])
    as [s|] eqn:Hrun; [|by vm_compute in Hrun].
  exists s. split; [reflexivity|].
  apply (no_deadlock_and_locks_released fs empty_registry [] [f1] dest _ s
           registry_ok_empty Hrun).
  vm_compute in Hrun. injection Hrun as <-. reflexivity.
Defined.

(** X7. A run removes nothing: a path that exists keeps existing through
    every schedule, and a directory stays a directory (a copy replaces
    files only). *)
Theorem run_removes_nothing (s s' : system) (schedule : list (nat * io)) :
  run s schedule = Some s' →
  (∀ q, is_Some (fsys s !! q) → is_Some (fsys s' !! q)) ∧
  (∀ q, fsys s !! q = Some Dir → fsys s' !! q = Some Dir).
Proof.
  apply (run_invariant
           (λ x, (∀ q, is_Some (fsys s !! q) → is_Some (fsys x !! q)) ∧
                 (∀ q, fsys s !! q = Some Dir → fsys x !! q = Some Dir)));
    [|done].
  intros s1 i o s2 [Hsome Hdir] (w & p & Hw & Ht & _)%step_transition. split.
  - intros q Hq. eapply transition_grows; [done|]. by apply Hsome.
  - intros q Hq. eapply transition_keeps_dirs; [done|]. by apply Hdir.
Qed.

Lemma run_removes_nothing_witness :
  let f1 := Path "/" ["src"; "a.txt"] in
  let dest := Path "/" ["dist"] in
  let fs : gmap path fs_node := {[f1 := File "one"]} in
  ∃ s, run (spawn fs empty_registry [] [f1] dest)
         [(0, Succeeds); (0, Succeeds); (0, Succeeds); (0, Succeeds)] = Some s ∧
       is_Some (fsys s !! f1).
Proof.
  intros f1 dest fs.
  destruct (run (spawn fs empty_registry [] [f1] dest)
              [(0, Succeeds); (0, Succeeds); (0, Succeeds); (0, Succeeds)])
    as [s|] eqn:Hrun; [|by vm_compute in Hrun].
  exists s. split; [reflexivity|].
  apply (run_removes_nothing _ s _ Hrun). by eexists.
Defined.

(** X8. Every schedule ends. For files with valid names that do not end
    with a dot, no schedule is longer than [length files * (capacity + 5)]
    turns, where [capacity] bounds the size the file system can reach:
    the probing loops of all coroutines end, however they interleave and
    whatever the operating system answers. *)
Theorem schedules_are_bounded
    (fs : gmap path fs_node) (r : registry) (lg : log) (files : list path)
    (dest : path) (schedule : list (nat * io)) (s : system) :
  (∀ f, f ∈ files → valid_name (Pathlib.name f)) →
  (∀ f, f ∈ files → PyStr.endswith "." (Pathlib.name f) = false) →
  run (spawn fs r lg files dest) schedule = Some s →
  length schedule + remaining (capacity fs files dest) s
    ≤ length files * (capacity fs files dest + 5) ∧
  size (fsys s) ≤ capacity fs files dest.
Proof.
  intros Hvalid Hdot Hrun.
  pose proof (run_bounded fs files dest Hvalid Hdot schedule _ _
                (bounded_ok_spawn fs files dest r lg) Hrun) as Hle.
  split.
  - unfold remaining at 2 in Hle. unfold spawn in Hle. cbn [tasks] in Hle.
    rewrite initial_budget in Hle. exact Hle.
  - assert (bounded_ok fs files dest s) as (_ & Hlen & _ & Hsize).
    { revert Hrun. apply (run_invariant (bounded_ok fs files dest)).
      - intros s1 i o s2 H1 Hs. by destruct (bounded_ok_step fs files dest Hvalid Hdot _ _ _ _ H1 Hs).
      - apply bounded_ok_spawn. }
    etrans; [exact Hsize|]. unfold capacity. rewrite <-Hlen.
    apply Nat.add_le_mono_l, sum_bound. intros x. destruct (at_ x); simpl; lia.
Qed.

Lemma schedules_are_bounded_witness :
  let f1 := Path "/" ["src"; "a.txt"] in
  let dest := Path "/" ["dist"] in
  let fs : gmap path fs_node := {[f1 := File "one"]} in
  ∃ s, run (spawn fs empty_registry [] [f1] dest)
         [(0, Succeeds); (0, Succeeds); (0, Succeeds); (0, Succeeds)] = Some s ∧
       size (fsys s) ≤ 4.
Proof.
  intros f1 dest fs.
  destruct (run (spawn fs empty_registry [] [f1] dest)
              [(0, Succeeds); (0, Succeeds); (0, Succeeds); (0, Succeeds)])
    as [s|] eqn:Hrun; [|by vm_compute in Hrun].
  exists s. split; [reflexivity|].
  refine (proj2 (schedules_are_bounded fs empty_registry [] [f1] dest _ s _ _ Hrun)).
  - intros f ->%list_elem_of_singleton. split; [discriminate | reflexivity].
  - intros f ->%list_elem_of_singleton. reflexivity.
Defined.

(** ** One coroutine alone *)

Section alone.
Import Pathlib PathlibFacts.

Context (fs : gmap path fs_node) (file dest : path).
Hypothesis Hvalid : valid_name (name file).
Hypothesis Hdot : PyStr.endswith "." (name file) = false.

(** Left alone inside [file_path_build], the coroutine walks the counter
    paths that exist. *)
Lemma probes_alone r h lg l n o : ∀ d k,
  k + d = n →
  (∀ j, j < n → path_exists fs (counter_path file dest j) = true) →
  run (System fs r h lg [Worker file dest (Probing l (counter_path file dest k) k)])
      (replicate d (0, o))
  = Some (System fs r h lg [Worker file dest (Probing l (counter_path file dest n) n)]).
Proof.
  induction d as [|d IH]; intros k Hk Hex; simpl.
  - by replace k with n by lia.
  - unfold step. simpl. rewrite Hex by lia.
    rewrite next_counter by (done || by left). apply IH; [lia|done].
Qed.

Lemma run_step s i o s' rest :
  step s i o = Some s' → run s ((i, o) :: rest) = run s' rest.
Proof. intros H. simpl. by rewrite H. Qed.

End alone.



(** ** More on the walker *)

Section walker_more.
Import Pathlib PathlibFacts.

(** Listing what is not a directory raises an [OSError] at once. *)
Lemma scan_not_dir (n : node) :
  is_dir n = false →
  ∀ source_folder files lg,
    ∃ detail, scan source_folder n files lg = (files, lg, Some (OSError detail)).
Proof.
  revert n. fix IH 1. intros [data|entries fault|[target|]|] Hdir source_folder files lg;
    simpl in *; try done; try by eexists.
  by apply IH.
Qed.

(** The walk always hands a list back. *)
Lemma read_folder_returns (source_folder : path) (n : node) (lg : log) :
  ∃ lg' files, read_folder source_folder n lg = (lg', Return files).
Proof.
  unfold read_folder, read_folder_frame.
  destruct (scan _ _ _ _) as [[files lg1] [e|]]; simpl.
  - destruct (is_OSError e); by do 2 eexists.
  - by do 2 eexists.
Qed.

End walker_more.

(** X10. A source folder that is not a directory (a regular file, a
    special file, a link that dangles or leads to one of these) is no
    error for the caller: [read_folder] logs the folder, logs the
    [OSError] of the listing at level INFO, and returns the empty list. *)
Theorem read_folder_of_non_directory (source_folder : path) (n : node) (lg : log) :
  is_dir n = false →
  ∃ detail,
    read_folder source_folder n lg
    = (lg ++ [(INFO, "Process folder: " +:+ Pathlib.as_posix source_folder);
              (INFO, "Failed to process folder " +:+ dquote
                      +:+ Pathlib.as_posix source_folder +:+ dquote
                      +:+ ": " +:+ detail)],
       Return []).
Proof.
  intros Hdir. unfold read_folder, read_folder_frame.
  destruct (scan_not_dir n Hdir source_folder []
              (lg ++ [(INFO, "Process folder: " +:+ Pathlib.as_posix source_folder)]))
    as [detail ->].
  exists detail. simpl. by rewrite <-(assoc_L (++)).
Qed.

Lemma read_folder_of_non_directory_witness :
  (read_folder (Path "/" ["src"]) (Symlink None) []).2 = Return [].
Proof.
  destruct (read_folder_of_non_directory (Path "/" ["src"]) (Symlink None) [] eq_refl)
    as [detail ->].
  reflexivity.
Defined.

(** ** The launch of [folder_copy] *)

(** X11. [folder_copy] raises before [gather] only for an empty source or
    output string, a [ValueError], and then nothing was read or logged.
    Otherwise, for a working directory that is absolute, both folders
    resolve to absolute paths, the walk returns, and one coroutine per
    file of the walk is created, in the order of the walk, all for the
    resolved output folder; no error of the walk reaches the caller. *)
Theorem folder_copy_launch_spec
    (cwd : path) (tree : node) (fs : gmap path fs_node) (r : registry)
    (lg : log) (source dest : string) :
  Pathlib.is_absolute cwd = true →
  (source = "" ∨ dest = "" →
     ∃ detail, folder_copy_launch cwd tree fs r lg source dest
               = (lg, Raise (ValueError detail))) ∧
  (source ≠ "" → dest ≠ "" →
     ∃ source_folder dest_folder lg' files,
       get_absolute_path cwd (PStr source) None = Return source_folder ∧
       get_absolute_path cwd (PStr dest) None = Return dest_folder ∧
       Pathlib.is_absolute source_folder = true ∧
       Pathlib.is_absolute dest_folder = true ∧
       read_folder source_folder tree lg = (lg', Return files) ∧
       folder_copy_launch cwd tree fs r lg source dest
       = (lg', Return (spawn fs r lg' files dest_folder)) ∧
       tasks (spawn fs r lg' files dest_folder)
       = (λ f, Worker f dest_folder Start) <$> files).
Proof.
  intros Hcwd.
  assert (∀ s, s ≠ "" → ∃ p, get_absolute_path cwd (PStr s) None = Return p ∧
                             Pathlib.is_absolute p = true) as Hres.
  { intros s Hs. unfold get_absolute_path. destruct s as [|a s]; [done|]. simpl.
    destruct (Pathlib.is_absolute (Pathlib.parse (String a s))) eqn:Habs.
    - by eexists.
    - eexists. split; [done|]. by apply join_absolute. }
  split.
  - intros Hempty. unfold folder_copy_launch.
    destruct (decide (source = "")) as [->|Hs]; [by eexists|].
    destruct Hempty as [?| ->]; [done|].
    destruct (Hres source Hs) as (p & -> & _). by eexists.
  - intros Hs Hd. destruct (Hres source Hs) as (src & Hsrc & Habs).
    destruct (Hres dest Hd) as (dst & Hdst & Habd).
    destruct (read_folder_returns src tree lg) as (lg' & files & Hwalk).
    exists src, dst, lg', files. split_and!; try done.
    unfold folder_copy_launch. by rewrite Hsrc, Hdst, Hwalk.
Qed.

Lemma folder_copy_launch_spec_witness :
  ∃ detail,
    folder_copy_launch (Path "/" ["home"]) (Directory [] None) ∅ empty_registry []
      "src" "" = ([], Raise (ValueError detail)).
Proof.
  apply (folder_copy_launch_spec (Path "/" ["home"]) (Directory [] None) ∅
           empty_registry [] "src" "" eq_refl).
  by right.
Defined.

(** ** The word counter: cleaning and splitting *)

Section words.
Import WordCount.

Lemma forall_chars_app p a b :
  forall_chars p (a +:+ b) = forall_chars p a && forall_chars p b.
Proof.
  induction a as [|c a IH]; [done|].
  change (String c a +:+ b) with (String c (a +:+ b)). simpl.
  by rewrite IH, andb_assoc.
Qed.

Lemma forall_chars_impl (p q : ascii → bool) s :
  (∀ c, p c = true → q c = true) →
  forall_chars p s = true → forall_chars q s = true.
Proof.
  intros Hpq. induction s as [|c s IH]; simpl; [done|].
  intros [Hc Hs]%andb_prop. by rewrite (Hpq c Hc), IH.
Qed.

Lemma translate_delete_free deleted text :
  forall_chars (λ c, negb (PyStr.contains c deleted))
    (translate_delete deleted text) = true.
Proof.
  induction text as [|c text IH]; simpl; [done|].
  destruct (PyStr.contains c deleted) eqn:Hc; simpl; [done|]. by rewrite Hc, IH.
Qed.

Lemma translate_delete_clean deleted text :
  forall_chars (λ c, negb (PyStr.contains c deleted)) text = true →
  translate_delete deleted text = text.
Proof.
  induction text as [|c text IH]; simpl; [done|].
  intros [Hc Ht]%andb_prop. apply negb_true_iff in Hc. by rewrite Hc, IH.
Qed.

Lemma translate_delete_app deleted a b :
  translate_delete deleted (a +:+ b)
  = translate_delete deleted a +:+ translate_delete deleted b.
Proof.
  induction a as [|c a IH]; [done|].
  change (String c a +:+ b) with (String c (a +:+ b)). simpl.
  destruct (PyStr.contains c deleted); [done|]. by rewrite IH.
Qed.

Lemma split_from_word u : ∀ w rest,
  forall_chars (λ c, negb (isspace c)) u = true →
  split_from w (u +:+ rest) = split_from (w +:+ u) rest.
Proof.
  induction u as [|c u IH]; intros w rest Hu.
  - by rewrite PyStrFacts.app_nil_r.
  - simpl in Hu. apply andb_prop in Hu as [Hc Hu]. apply negb_true_iff in Hc.
    change (String c u +:+ rest) with (String c (u +:+ rest)). simpl.
    rewrite Hc, IH by done. f_equal.
    by rewrite PyStrFacts.app_assoc.
Qed.

Lemma split_from_blank sep : ∀ rest,
  is_blank sep → split_from "" (sep +:+ rest) = split_from "" rest.
Proof.
  unfold is_blank. induction sep as [|c sep IH]; intros rest Hsep; [done|].
  simpl in Hsep. apply andb_prop in Hsep as [Hc Hsep].
  change (String c sep +:+ rest) with (String c (sep +:+ rest)). simpl.
  rewrite Hc, ?decide_True by done. by apply IH.
Qed.

Lemma split_from_cut sep w rest :
  w ≠ "" → sep ≠ "" → is_blank sep →
  split_from w (sep +:+ rest) = w :: split_from "" rest.
Proof.
  intros Hw Hsep Hblank. destruct sep as [|c sep]; [done|].
  unfold is_blank in Hblank. simpl in Hblank.
  apply andb_prop in Hblank as [Hc Hblank].
  change (String c sep +:+ rest) with (String c (sep +:+ rest)). simpl.
  rewrite Hc. rewrite decide_False by done. f_equal. by apply split_from_blank.
Qed.

Lemma split_from_trail w trail :
  w ≠ "" → is_blank trail → split_from w trail = [w].
Proof.
  intros Hw Hblank. destruct trail as [|c trail].
  - simpl. by rewrite decide_False.
  - rewrite <-(PyStrFacts.app_nil_r (String c trail)).
    rewrite split_from_cut by done. done.
Qed.

Lemma split_joined sep trail ws :
  Forall is_word ws → sep ≠ "" → is_blank sep → is_blank trail →
  split_from "" (String.concat sep ws +:+ trail) = ws.
Proof.
  intros Hws Hsep Hblank Htrail. induction Hws as [|w ws [Hw Hchars] Hws IH].
  - change (split_from "" trail = []). rewrite <-(PyStrFacts.app_nil_r trail).
    by rewrite split_from_blank.
  - destruct ws as [|w' ws].
    + simpl. rewrite split_from_word by done. by apply split_from_trail.
    + change (String.concat sep (w :: w' :: ws))
        with (w +:+ (sep +:+ String.concat sep (w' :: ws))).
      rewrite !PyStrFacts.app_assoc.
      rewrite split_from_word by done.
      change ("" +:+ w) with w.
      rewrite split_from_cut by done. by rewrite IH.
Qed.

Lemma split_from_words text : ∀ w,
  forall_chars (λ c, negb (isspace c)) w = true →
  Forall is_word (split_from w text).
Proof.
  induction text as [|c text IH]; intros w Hw; simpl.
  - destruct (decide (w = "")); [done|]. by repeat constructor.
  - destruct (isspace c) eqn:Hc.
    + destruct (decide (w = "")); [by apply IH|].
      constructor; [done|by apply IH].
    + apply IH. rewrite forall_chars_app, Hw. simpl. by rewrite Hc.
Qed.

Lemma split_from_chars p text : ∀ w,
  forall_chars p w = true → forall_chars p text = true →
  Forall (λ x, forall_chars p x = true) (split_from w text).
Proof.
  induction text as [|c text IH]; intros w Hw Ht; simpl in *.
  - destruct (decide (w = "")); by repeat constructor.
  - apply andb_prop in Ht as [Hc Ht]. destruct (isspace c).
    + destruct (decide (w = "")); [by apply IH|].
      constructor; [done|by apply IH].
    + apply IH; [|done]. rewrite forall_chars_app, Hw. simpl. by rewrite Hc.
Qed.

End words.

(** X12. [remove_punctuation] leaves no character of
    [string.punctuation], changes nothing else (a text without
    punctuation is returned as it is, so cleaning twice is cleaning
    once), and works piece by piece. *)
Theorem remove_punctuation_spec (text other : string) :
  WordCount.forall_chars (λ c, negb (PyStr.contains c WordCount.punctuation))
    (WordCount.remove_punctuation text) = true ∧
  WordCount.remove_punctuation (WordCount.remove_punctuation text)
  = WordCount.remove_punctuation text ∧
  WordCount.remove_punctuation (text +:+ other)
  = WordCount.remove_punctuation text +:+ WordCount.remove_punctuation other ∧
  (WordCount.forall_chars (λ c, negb (PyStr.contains c WordCount.punctuation)) text = true →
   WordCount.remove_punctuation text = text).
Proof.
  unfold WordCount.remove_punctuation. split_and!.
  - apply translate_delete_free.
  - apply translate_delete_clean, translate_delete_free.
  - apply translate_delete_app.
  - apply translate_delete_clean.
Qed.

Lemma remove_punctuation_spec_witness :
  WordCount.remove_punctuation "no dots here" = "no dots here".
Proof.
  apply (remove_punctuation_spec "no dots here" ""). reflexivity.
Defined.

(** ** The word counter: grouping and counting *)

Section counting.
Import WordCount.

Lemma dict_get_set {V} (d : list (string * V)) k v k' :
  dict_get (dict_set d k v) k' = if decide (k = k') then Some v else dict_get d k'.
Proof.
  induction d as [|[k0 v0] d IH]; simpl.
  - by destruct (decide (k = k')).
  - destruct (decide (k0 = k)) as [->|Hk]; simpl.
    + by destruct (decide (k = k')).
    + rewrite IH. destruct (decide (k0 = k')) as [->|]; [|done].
      by rewrite decide_False.
Qed.

Lemma dict_set_keys {V} (d : list (string * V)) k v :
  (dict_set d k v).*1 = if decide (k ∈ d.*1) then d.*1 else d.*1 ++ [k].
Proof.
  induction d as [|[k0 v0] d IH]; [done|].
  change (dict_set ((k0, v0) :: d) k v)
    with (if decide (k0 = k) then (k0, v) :: d else (k0, v0) :: dict_set d k v).
  destruct (decide (k0 = k)) as [->|Hk]; rewrite !fmap_cons; cbn [fst].
  - clear IH. by rewrite decide_True by (by left).
  - rewrite IH. destruct (decide (k ∈ d.*1)) as [Hin|Hin].
    + by rewrite decide_True by (by right).
    + by rewrite decide_False by (by intros [?|?]%elem_of_cons).
Qed.

Lemma dict_get_keys {V} (d : list (string * V)) k :
  k ∉ d.*1 → dict_get d k = None.
Proof.
  induction d as [|[k0 v0] d IH]; simpl; [done|].
  intros Hk. apply not_elem_of_cons in Hk as [Hk0 Hk].
  rewrite decide_False by done. by apply IH.
Qed.

Lemma dict_get_elem {V} (d : list (string * V)) k v :
  NoDup d.*1 → (k, v) ∈ d → dict_get d k = Some v.
Proof.
  induction d as [|[k0 v0] d IH]; simpl.
  - by intros _ ?%elem_of_nil.
  - intros [Hk0 Hd]%NoDup_cons [Heq|Hin]%elem_of_cons.
    + simplify_eq. by rewrite decide_True.
    + rewrite decide_False; [by apply IH|].
      intros ->. apply Hk0. apply list_elem_of_fmap. by exists (k, v).
Qed.

Lemma dict_set_fresh {V} (d : list (string * V)) k v :
  k ∉ d.*1 → dict_set d k v = d ++ [(k, v)].
Proof.
  induction d as [|[k0 v0] d IH]; simpl; [done|].
  intros Hk. apply not_elem_of_cons in Hk as [Hk0 Hk].
  rewrite decide_False by done. by rewrite IH.
Qed.

(** A list of items whose keys are distinct is the dict it builds. *)
Lemma dict_items {V} (items : list (string * V)) :
  NoDup items.*1 → dict items = items.
Proof.
  unfold dict. intros Hdup.
  cut (∀ d, NoDup (d.*1 ++ items.*1) →
            foldl (λ d kv, dict_set d kv.1 kv.2) d items = d ++ items).
  { intros H. by apply (H []). }
  clear Hdup. induction items as [|[k v] items IH]; intros d Hdup; simpl.
  - by rewrite (right_id_L [] (++)).
  - rewrite dict_set_fresh.
    + rewrite IH; [by rewrite <-(assoc_L (++))|].
      rewrite fmap_app. simpl. by rewrite <-(assoc_L (++)).
    + simpl in Hdup. apply NoDup_app in Hdup as (_ & Hd & _).
      intros Hin. apply (Hd k Hin). by left.
Qed.

Lemma elem_of_first_occurrences l k : k ∈ first_occurrences l ↔ k ∈ l.
Proof.
  induction l as [|x l IH]; simpl; [done|].
  rewrite !elem_of_cons, list_elem_of_filter, IH.
  destruct (decide (k = x)); naive_solver.
Qed.

Lemma NoDup_first_occurrences l : NoDup (first_occurrences l).
Proof.
  induction l as [|x l IH]; simpl; [constructor|].
  apply NoDup_cons. split.
  - rewrite list_elem_of_filter. naive_solver.
  - by apply NoDup_filter.
Qed.

Lemma first_occurrences_snoc l k :
  first_occurrences (l ++ [k])
  = if decide (k ∈ l) then first_occurrences l else first_occurrences l ++ [k].
Proof.
  induction l as [|x l IH]; [done|].
  rewrite <-app_comm_cons. cbn [first_occurrences].
  - rewrite IH. destruct (decide (k ∈ l)) as [Hin|Hin].
    + rewrite decide_True; [done|]. by right.
    + rewrite filter_app, filter_cons, filter_nil.
      destruct (decide (k = x)) as [->|Hk].
      * destruct (decide (x ≠ x)); [done|].
        rewrite decide_True by (by left). by rewrite (right_id_L [] (++)).
      * destruct (decide (k ≠ x)); [|done].
        by rewrite decide_False by (by intros [?|?]%elem_of_cons).
Qed.

Lemma values_of_snoc k l k0 v0 :
  values_of k (l ++ [(k0, v0)])
  = values_of k l ++ (if decide (k0 = k) then [v0] else []).
Proof.
  unfold values_of. rewrite filter_app, fmap_app, filter_cons, filter_nil. simpl.
  by destruct (decide (k0 = k)).
Qed.

Lemma values_of_none k l : k ∉ l.*1 → values_of k l = [].
Proof.
  unfold values_of. induction l as [|[k0 v0] l IH]; simpl; [done|].
  intros [Hk0 Hk]%not_elem_of_cons. rewrite filter_cons. simpl.
  rewrite decide_False by done. by apply IH.
Qed.

Lemma shuffle_function_snoc l kv :
  shuffle_function (l ++ [kv]) = append_value (shuffle_function l) kv.1 kv.2.
Proof. unfold shuffle_function. by rewrite foldl_app. Qed.

Lemma shuffle_function_inv l :
  (shuffle_function l).*1 = first_occurrences l.*1 ∧
  ∀ k, dict_get (shuffle_function l) k
       = if decide (k ∈ l.*1) then Some (values_of k l) else None.
Proof.
  induction l as [|[k0 v0] l [IHk IHg]] using rev_ind.
  - by split.
  - rewrite shuffle_function_snoc. simpl.
    assert (append_value (shuffle_function l) k0 v0
            = dict_set (shuffle_function l) k0 (values_of k0 l ++ [v0])) as ->.
    { unfold append_value. rewrite IHg.
      destruct (decide (k0 ∈ l.*1)); [done|]. by rewrite values_of_none. }
    replace ((l ++ [(k0, v0)]).*1) with (l.*1 ++ [k0]) by (by rewrite fmap_app).
    split.
    + rewrite dict_set_keys, IHk, first_occurrences_snoc.
      destruct (decide (k0 ∈ l.*1)) as [Hin|Hin].
      * rewrite decide_True; [done|]. by apply elem_of_first_occurrences.
      * rewrite decide_False; [done|]. by rewrite elem_of_first_occurrences.
    + intros k. rewrite dict_get_set, values_of_snoc, IHg.
      destruct (decide (k0 = k)) as [->|Hk].
      * rewrite decide_True; [done|]. apply elem_of_app. right. by left.
      * rewrite (right_id_L [] (++)).
        destruct (decide (k ∈ l.*1)) as [Hin|Hin].
        -- rewrite decide_True; [done|]. apply elem_of_app. by left.
        -- rewrite decide_False; [done|].
           intros [?|?%list_elem_of_singleton]%elem_of_app; by simplify_eq.
Qed.

Lemma foldl_add a l : foldl Z.add a l = (a + foldl Z.add 0 l)%Z.
Proof.
  revert a. induction l as [|x l IH]; intros a; simpl; [lia|].
  rewrite (IH (a + x)%Z), (IH (0 + x)%Z). lia.
Qed.

Lemma sum_ones n : sum (replicate n 1%Z) = Z.of_nat n.
Proof.
  unfold sum. induction n as [|n IH]; simpl; [done|].
  rewrite foldl_add, IH. lia.
Qed.

Lemma values_of_mapped k words :
  values_of k (map_function <$> words) = replicate (occurrences k words) 1%Z.
Proof.
  unfold values_of, occurrences. induction words as [|w words IH]; [done|].
  rewrite fmap_cons, !filter_cons. cbn [map_function fst].
  destruct (decide (w = k)); [rewrite fmap_cons|]; cbn [snd length replicate];
    by rewrite IH.
Qed.

Lemma mapped_keys words : (map_function <$> words).*1 = words.
Proof.
  induction words as [|w words IH]; [done|].
  rewrite !fmap_cons, IH. done.
Qed.

Lemma items_by_keys {V} (f : string → V) (d : list (string * V)) :
  (∀ k v, (k, v) ∈ d → v = f k) → d = (λ k, (k, f k)) <$> d.*1.
Proof.
  induction d as [|[k v] d IH]; intros Hf; [done|].
  rewrite !fmap_cons. cbn [fst]. f_equal.
  - f_equal. apply Hf. by left.
  - apply IH. intros k' v' Hin. apply Hf. by right.
Qed.

Lemma map_reduce_words text search_words :
  map_reduce text search_words
  = dict (reduce_function <$>
            shuffle_function (map_function <$> counted_words text search_words)).
Proof. unfold map_reduce, counted_words. by destruct search_words as [[|??]|]. Qed.

Lemma map_reduce_counts text search_words :
  map_reduce text search_words
  = (λ w, (w, Z.of_nat (occurrences w (counted_words text search_words))))
      <$> first_occurrences (counted_words text search_words).
Proof.
  rewrite map_reduce_words.
  set (words := counted_words text search_words).
  destruct (shuffle_function_inv (map_function <$> words)) as [Hkeys Hget].
  rewrite mapped_keys in Hkeys.
  assert ((reduce_function <$> shuffle_function (map_function <$> words)).*1
          = first_occurrences words) as Hreduced.
  { rewrite <-Hkeys, <-!list_fmap_compose. apply list_fmap_ext.
    by intros i [k vs] _. }
  rewrite dict_items by (rewrite Hreduced; apply NoDup_first_occurrences).
  rewrite <-Hreduced. apply items_by_keys.
  intros k v ([k' vs] & Heq & Hin)%list_elem_of_fmap. simpl in Heq.
  injection Heq as -> ->.
  apply dict_get_elem in Hin; [|rewrite Hkeys; apply NoDup_first_occurrences].
  rewrite Hget, mapped_keys in Hin.
  destruct (decide (k' ∈ words)); [|done]. injection Hin as <-.
  by rewrite values_of_mapped, sum_ones.
Qed.

End counting.

(** ** The word counter: the most common words *)

Section ranking.
Import WordCount.

Lemma insert_by_count_perm x l : insert_by_count x l ≡ₚ x :: l.
Proof.
  induction l as [|y l IH]; [done|].
  cbn [insert_by_count]. destruct (x.2 <? y.2)%Z; [|done].
  rewrite IH. apply Permutation_swap.
Qed.

Lemma sorted_by_count_perm l : sorted_by_count l ≡ₚ l.
Proof.
  induction l as [|x l IH]; [done|].
  cbn [sorted_by_count foldr]. rewrite insert_by_count_perm.
  by apply Permutation_skip.
Qed.

Lemma insert_by_count_sorted x l :
  StronglySorted by_count l → StronglySorted by_count (insert_by_count x l).
Proof.
  induction 1 as [|y l Hl IH Hy]; cbn [insert_by_count].
  - by repeat constructor.
  - destruct (x.2 <? y.2)%Z eqn:Hxy.
    + constructor; [done|]. rewrite insert_by_count_perm.
      constructor; [|done]. unfold by_count. lia.
    + constructor; [by constructor|].
      constructor; [unfold by_count; lia|].
      eapply Forall_impl; [exact Hy|]. unfold by_count. intros z. lia.
Qed.

Lemma sorted_by_count_sorted l : StronglySorted by_count (sorted_by_count l).
Proof.
  induction l as [|x l IH]; [constructor|].
  cbn [sorted_by_count foldr]. by apply insert_by_count_sorted.
Qed.

Lemma insert_by_count_stable c x l :
  filter (λ z, z.2 = c) (insert_by_count x l) = filter (λ z, z.2 = c) (x :: l).
Proof.
  induction l as [|y l IH]; [done|].
  cbn [insert_by_count]. destruct (x.2 <? y.2)%Z eqn:Hxy; [|done].
  rewrite (filter_cons _ y), IH, !(filter_cons _ x), (filter_cons _ y).
  destruct (decide (y.2 = c)), (decide (x.2 = c)); try done. lia.
Qed.

Lemma sorted_by_count_stable c l :
  filter (λ z, z.2 = c) (sorted_by_count l) = filter (λ z, z.2 = c) l.
Proof.
  induction l as [|x l IH]; [done|].
  cbn [sorted_by_count foldr]. rewrite insert_by_count_stable.
  rewrite !(filter_cons _ x). fold (sorted_by_count l). by rewrite IH.
Qed.

Lemma most_common_nil result n :
  most_common result n = [] ↔ result = [] ∨ (n ≤ 0)%Z.
Proof.
  unfold most_common. split.
  - intros [Hn|Hs]%take_nil_inv; [right; lia|left].
    apply Permutation_nil_r. by rewrite <-Hs, sorted_by_count_perm.
  - intros [->|Hn]; [by destruct (Z.to_nat n)|].
    by replace (Z.to_nat n) with 0 by lia.
Qed.

End ranking.

Section totals.
Import WordCount.

Lemma values_of_some k l : k ∈ l.*1 → values_of k l ≠ [].
Proof.
  unfold values_of. induction l as [|[k0 v0] l IH]; [by intros ?%elem_of_nil|].
  rewrite fmap_cons, filter_cons. cbn [fst].
  intros [->|Hin]%elem_of_cons.
  - by rewrite decide_True.
  - destruct (decide (k0 = k)); [done|]. by apply IH.
Qed.

Lemma sum_cons x l : sum (x :: l) = (x + sum l)%Z.
Proof. unfold sum. cbn [foldl]. rewrite foldl_add. lia. Qed.

Lemma occurrences_cons w x l :
  occurrences w (x :: l) = (if decide (x = w) then 1 else 0) + occurrences w l.
Proof. unfold occurrences. rewrite filter_cons. by destruct (decide (x = w)). Qed.

Lemma occurrences_none w l : w ∉ l → occurrences w l = 0.
Proof.
  induction l as [|x l IH]; [done|]. intros [Hx Hl]%not_elem_of_cons.
  rewrite occurrences_cons, decide_False by done. by rewrite IH.
Qed.

Lemma occurrences_some w l : w ∈ l → 0 < occurrences w l.
Proof.
  induction l as [|x l IH]; [by intros ?%elem_of_nil|].
  rewrite occurrences_cons. intros [->|Hin]%elem_of_cons.
  - rewrite decide_True by done. lia.
  - specialize (IH Hin). lia.
Qed.

Lemma sum_split (f : string → Z) x ks :
  NoDup ks →
  sum (f <$> ks)
  = ((if decide (x ∈ ks) then f x else 0) + sum (f <$> filter (λ y, y ≠ x) ks))%Z.
Proof.
  induction 1 as [|k ks Hk Hks IH]; [done|].
  rewrite fmap_cons, sum_cons, filter_cons.
  destruct (decide (k = x)) as [->|Hne].
  - rewrite (decide_True (P := x ∈ x :: ks)) by (by left).
    rewrite (decide_False (P := x ≠ x)) by (by intros ?).
    rewrite IH, (decide_False (P := x ∈ ks)) by done. lia.
  - rewrite (decide_True (P := k ≠ x)) by done. rewrite fmap_cons, sum_cons, IH.
    destruct (decide (x ∈ ks)) as [Hin|Hin].
    + rewrite decide_True by (by right). lia.
    + rewrite decide_False by (by intros [?|?]%elem_of_cons). lia.
Qed.

Lemma sum_ext (f g : string → Z) ks :
  (∀ k, k ∈ ks → f k = g k) → sum (f <$> ks) = sum (g <$> ks).
Proof.
  induction ks as [|k ks IH]; intros Hfg; [done|].
  rewrite !fmap_cons, !sum_cons, (Hfg k) by (by left).
  rewrite IH; [done|]. intros k' Hk'. apply Hfg. by right.
Qed.

Lemma occurrences_total l :
  sum ((λ w, Z.of_nat (occurrences w l)) <$> first_occurrences l)
  = Z.of_nat (length l).
Proof.
  induction l as [|x l IH]; [done|].
  cbn [first_occurrences length]. rewrite fmap_cons, sum_cons.
  rewrite (sum_ext _ (λ w, Z.of_nat (occurrences w l))).
  - rewrite (sum_split _ x) in IH by apply NoDup_first_occurrences.
    rewrite occurrences_cons, decide_True by done.
    destruct (decide (x ∈ first_occurrences l)) as [Hin|Hin]; [lia|].
    rewrite occurrences_none; [lia|]. by rewrite <-elem_of_first_occurrences.
  - intros k [Hne Hk]%list_elem_of_filter.
    rewrite occurrences_cons, decide_False; [done|]. by intros ->.
Qed.

Lemma first_occurrences_nil l : first_occurrences l = [] → l = [].
Proof. by destruct l. Qed.

End totals.

(** X13. [shuffle_function] groups the values by key: the keys of the
    result are the distinct keys of the input in the order of their first
    occurrence, each once; a key is paired with all its values, in the
    order of the input, and no key is left with an empty list. *)
Theorem shuffle_function_groups (mapped_values : list (string * Z)) :
  (WordCount.shuffle_function mapped_values).*1
  = WordCount.first_occurrences mapped_values.*1 ∧
  NoDup (WordCount.shuffle_function mapped_values).*1 ∧
  (∀ key, WordCount.dict_get (WordCount.shuffle_function mapped_values) key
          = if decide (key ∈ mapped_values.*1)
            then Some (WordCount.values_of key mapped_values) else None) ∧
  (∀ key values, (key, values) ∈ WordCount.shuffle_function mapped_values →
                 values = WordCount.values_of key mapped_values ∧ values ≠ []).
Proof.
  destruct (shuffle_function_inv mapped_values) as [Hkeys Hget].
  assert (NoDup (WordCount.shuffle_function mapped_values).*1) as Hdup.
  { rewrite Hkeys. apply NoDup_first_occurrences. }
  split_and!; try done.
  intros key values Hin. apply dict_get_elem in Hin; [|done].
  rewrite Hget in Hin. destruct (decide (key ∈ mapped_values.*1)); [|done].
  injection Hin as <-. split; [done|]. by apply values_of_some.
Qed.

Lemma shuffle_function_groups_witness :
  ("b", [2; 5]%Z) ∈ WordCount.shuffle_function [("a", 1); ("b", 2); ("a", 3); ("b", 5)]%Z ∧
  [2; 5]%Z = WordCount.values_of "b" [("a", 1); ("b", 2); ("a", 3); ("b", 5)]%Z.
Proof.
  assert (("b", [2; 5]%Z)
          ∈ WordCount.shuffle_function [("a", 1); ("b", 2); ("a", 3); ("b", 5)]%Z)
    as Hin by (right; left).
  split; [exact Hin|].
  exact (proj1 (proj2 (proj2 (proj2
    (shuffle_function_groups [("a", 1); ("b", 2); ("a", 3); ("b", 5)]%Z)))
    "b" [2; 5]%Z Hin)).
Defined.

(** X14. [map_reduce] counts occurrences. With the words being those of
    the text after the removal of punctuation, cut at whitespace and, for
    a list of search words that is not empty, restricted to that list:
    the result has one item per distinct word, in the order of first
    occurrence, whose value is the number of times the word occurs; a
    word that does not occur has no item; no count is zero; and the
    counts add up to the number of words. *)
Theorem map_reduce_counts_occurrences
    (text : string) (search_words : option (list string)) :
  let words := WordCount.counted_words text search_words in
  WordCount.map_reduce text search_words
  = (λ w, (w, Z.of_nat (WordCount.occurrences w words)))
      <$> WordCount.first_occurrences words ∧
  (∀ w, WordCount.dict_get (WordCount.map_reduce text search_words) w
        = if decide (w ∈ words)
          then Some (Z.of_nat (WordCount.occurrences w words)) else None) ∧
  (∀ w n, (w, n) ∈ WordCount.map_reduce text search_words → (0 < n)%Z) ∧
  WordCount.sum (WordCount.map_reduce text search_words).*2
  = Z.of_nat (length words).
Proof.
  intros words. pose proof (map_reduce_counts text search_words) as Heq.
  fold words in Heq. split_and!.
  - done.
  - intros w. destruct (decide (w ∈ words)) as [Hin|Hin].
    + apply dict_get_elem.
      * rewrite Heq, <-list_fmap_compose.
        rewrite (list_fmap_ext _ id _ (λ _ _ _, eq_refl)), list_fmap_id.
        apply NoDup_first_occurrences.
      * rewrite Heq. apply list_elem_of_fmap. exists w. split; [done|].
        by apply elem_of_first_occurrences.
    + apply dict_get_keys. rewrite Heq, <-list_fmap_compose.
      rewrite (list_fmap_ext _ id _ (λ _ _ _, eq_refl)), list_fmap_id.
      by rewrite elem_of_first_occurrences.
  - intros w n Hin. rewrite Heq in Hin.
    apply list_elem_of_fmap in Hin as (w' & [= -> ->] & Hw').
    apply (Nat2Z.inj_lt 0). by apply occurrences_some, elem_of_first_occurrences.
  - rewrite Heq, <-list_fmap_compose. apply occurrences_total.
Qed.

Lemma map_reduce_counts_occurrences_witness :
  ("the", 2%Z) ∈ WordCount.map_reduce "The cat, the dog: the end." None ∧
  (0 < 2)%Z.
Proof.
  assert (("the", 2%Z) ∈ WordCount.map_reduce "The cat, the dog: the end." None)
    as Hin by (right; right; left).
  split; [exact Hin|].
  exact (proj1 (proj2 (proj2
    (map_reduce_counts_occurrences "The cat, the dog: the end." None)))
    "the" 2%Z Hin).
Defined.

Section keys.
Import WordCount.

Lemma isspace_not_punctuation c :
  isspace c = true → PyStr.contains c punctuation = false.
Proof.
  destruct c as [[] [] [] [] [] [] [] []]; vm_compute; congruence.
Qed.

Lemma split_words_clean text :
  Forall (λ w, is_word w ∧
               forall_chars (λ c, negb (PyStr.contains c punctuation)) w = true)
    (split (remove_punctuation text)).
Proof.
  apply Forall_and. split.
  - by apply split_from_words.
  - apply split_from_chars; [done|]. apply translate_delete_free.
Qed.

Lemma map_reduce_keys text search_words :
  (map_reduce text search_words).*1
  = first_occurrences (counted_words text search_words).
Proof.
  rewrite map_reduce_counts, <-list_fmap_compose.
  by rewrite (list_fmap_ext _ id _ (λ _ _ _, eq_refl)), list_fmap_id.
Qed.

Lemma forall_chars_concat p sep ws :
  forall_chars p sep = true → Forall (λ w, forall_chars p w = true) ws →
  forall_chars p (String.concat sep ws) = true.
Proof.
  intros Hsep. induction 1 as [|w ws Hw Hws IH]; [done|].
  destruct ws as [|w' ws]; [done|].
  change (String.concat sep (w :: w' :: ws))
    with (w +:+ (sep +:+ String.concat sep (w' :: ws))).
  by rewrite !forall_chars_app, Hw, Hsep, IH.
Qed.

Lemma blank_clean s :
  is_blank s → forall_chars (λ c, negb (PyStr.contains c punctuation)) s = true.
Proof.
  apply forall_chars_impl. intros c Hc. by rewrite isspace_not_punctuation.
Qed.

End keys.

(** X15. The keys [map_reduce] returns are words without punctuation:
    none is empty, none holds whitespace or a character of
    [string.punctuation], and with a list of search words that is not
    empty every key is one of them. An empty list of search words is no
    filter: it gives what no list gives. *)
Theorem map_reduce_keys_are_clean_words
    (text : string) (search_words : option (list string)) :
  (∀ w, w ∈ (WordCount.map_reduce text search_words).*1 →
        WordCount.is_word w ∧
        WordCount.forall_chars
          (λ c, negb (PyStr.contains c WordCount.punctuation)) w = true ∧
        (∀ s rest, search_words = Some (s :: rest) → w ∈ s :: rest)) ∧
  WordCount.map_reduce text (Some []) = WordCount.map_reduce text None.
Proof.
  split; [|done].
  intros w. rewrite map_reduce_keys, elem_of_first_occurrences. intros Hin.
  pose proof (split_words_clean text) as Hclean. rewrite Forall_forall in Hclean.
  unfold WordCount.counted_words in Hin.
  destruct search_words as [[|s rest]|].
  - destruct (Hclean w Hin) as [??]. by split_and!.
  - apply list_elem_of_filter in Hin as [Hs Hin].
    destruct (Hclean w Hin) as [??]. split_and!; try done.
    by intros ?? [= <- <-].
  - destruct (Hclean w Hin) as [??]. by split_and!.
Qed.

Lemma map_reduce_keys_are_clean_words_witness :
  WordCount.is_word "wellknown".
Proof.
  refine (proj1 (proj1 (map_reduce_keys_are_clean_words
    "A well-known fact." (Some ["fact"; "wellknown"])) "wellknown" _)).
  left.
Defined.

(** X16. Counting the words of a joined list. For words that are not
    empty and hold neither whitespace nor punctuation, joined by a
    separator of whitespace, with any whitespace before and after, the
    words line 87 finds are the words joined, so [map_reduce] gives each
    distinct word with the number of times it was joined. *)
Theorem map_reduce_of_joined_words
    (ws : list string) (sep lead trail : string) :
  Forall WordCount.is_word ws →
  Forall (λ w, WordCount.forall_chars
                 (λ c, negb (PyStr.contains c WordCount.punctuation)) w = true) ws →
  sep ≠ EmptyString → WordCount.is_blank sep →
  WordCount.is_blank lead → WordCount.is_blank trail →
  WordCount.split (WordCount.remove_punctuation
                     (lead +:+ String.concat sep ws +:+ trail)) = ws ∧
  WordCount.map_reduce (lead +:+ String.concat sep ws +:+ trail) None
  = (λ w, (w, Z.of_nat (WordCount.occurrences w ws)))
      <$> WordCount.first_occurrences ws.
Proof.
  intros Hws Hclean Hsep Hblank Hlead Htrail.
  assert (WordCount.split (WordCount.remove_punctuation
            (lead +:+ String.concat sep ws +:+ trail)) = ws) as Hsplit.
  { unfold WordCount.remove_punctuation.
    rewrite translate_delete_clean.
    - unfold WordCount.split. rewrite split_from_blank by done.
      by apply split_joined.
    - rewrite !forall_chars_app.
      rewrite (blank_clean lead), (blank_clean trail) by done.
      rewrite forall_chars_concat; [done|by apply blank_clean|done]. }
  split; [done|].
  rewrite map_reduce_counts. unfold WordCount.counted_words. by rewrite Hsplit.
Qed.

Lemma map_reduce_of_joined_words_witness :
  WordCount.map_reduce "  to be or not to be " None
  = [("to", 2%Z); ("be", 2%Z); ("or", 1%Z); ("not", 1%Z)].
Proof.
  refine (proj2 (map_reduce_of_joined_words ["to"; "be"; "or"; "not"; "to"; "be"]
                   " " "  " " " _ _ _ _ _ _)).
  - repeat constructor; by vm_compute.
  - repeat constructor.
  - done.
  - reflexivity.
  - reflexivity.
  - reflexivity.
Defined.

(** X17. The figure of [visualize_top_words]. With no item to show (an
    empty result, or a number of words that is not positive) line 116
    raises a [ValueError] and nothing is drawn. Otherwise the bars are the
    first [top_number] items of the ranking of the result: a permutation
    of its items, in order of count from the largest, items of equal
    count in the order of the result; so no item left out counts more
    than a bar, and there are [top_number] bars or as many as the result
    has items. *)
Theorem visualize_top_words_ranking (result : list (string * Z)) (top_number : Z) :
  (result = [] ∨ (top_number ≤ 0)%Z →
   WordCount.visualize_top_words result top_number
   = Raise (ValueError "not enough values to unpack (expected 2, got 0)")) ∧
  (result ≠ [] → (0 < top_number)%Z →
   ∃ fig ranking,
     WordCount.visualize_top_words result top_number = Return fig ∧
     ranking ≡ₚ result ∧
     StronglySorted WordCount.by_count ranking ∧
     (∀ c, filter (λ x, x.2 = c) ranking = filter (λ x, x.2 = c) result) ∧
     zip (WordCount.bar_labels fig) (WordCount.bar_widths fig)
     = take (Z.to_nat top_number) ranking ∧
     length (WordCount.bar_labels fig) = Z.to_nat top_number `min` length result ∧
     length (WordCount.bar_widths fig) = length (WordCount.bar_labels fig) ∧
     (∀ shown hidden,
        shown ∈ take (Z.to_nat top_number) ranking →
        hidden ∈ drop (Z.to_nat top_number) ranking →
        (hidden.2 ≤ shown.2)%Z) ∧
     WordCount.y_inverted fig = true ∧
     WordCount.title fig = "Top " +:+ pretty top_number +:+ " Most Frequent Words").
Proof.
  split.
  - intros Hnone. apply (most_common_nil result top_number) in Hnone.
    unfold WordCount.visualize_top_words. by rewrite Hnone.
  - intros Hsome Hpos. unfold WordCount.visualize_top_words.
    destruct (WordCount.most_common result top_number) as [|x top] eqn:Htop.
    { apply most_common_nil in Htop as [?|?]; [done|lia]. }
    rewrite <-Htop. unfold WordCount.most_common.
    eexists _, (WordCount.sorted_by_count result).
    split; [reflexivity|]. cbn [WordCount.bar_labels WordCount.bar_widths
      WordCount.y_inverted WordCount.title].
    split_and!.
    + apply sorted_by_count_perm.
    + apply sorted_by_count_sorted.
    + intros c. apply sorted_by_count_stable.
    + apply zip_fst_snd.
    + by rewrite length_fmap, length_take, sorted_by_count_perm.
    + by rewrite !length_fmap.
    + intros shown hidden Hshown Hhidden.
      apply (StronglySorted_app_1_elem_of WordCount.by_count
               (take (Z.to_nat top_number) (WordCount.sorted_by_count result))
               (drop (Z.to_nat top_number) (WordCount.sorted_by_count result))
               shown hidden); [|done|done].
      rewrite take_drop. apply sorted_by_count_sorted.
    + done.
    + done.
Qed.

Lemma visualize_top_words_ranking_witness :
  WordCount.visualize_top_words [] 10
  = Raise (ValueError "not enough values to unpack (expected 2, got 0)").
Proof.
  apply (visualize_top_words_ranking [] 10). by left.
Defined.

Section entry.
Import WordCount.

Lemma map_reduce_nil text :
  map_reduce text None = [] ↔ split (remove_punctuation text) = [].
Proof.
  rewrite map_reduce_counts. unfold counted_words. split.
  - intros H%fmap_nil_inv. by apply first_occurrences_nil.
  - by intros ->.
Qed.

Lemma visualize_top_words_shows result n :
  result ≠ [] → (0 < n)%Z →
  ∃ fig, visualize_top_words result n = Return fig ∧
         0 < length (bar_labels fig) ≤ Z.to_nat n.
Proof.
  intros Hsome Hpos. unfold visualize_top_words.
  destruct (most_common result n) as [|x top] eqn:Htop.
  { apply most_common_nil in Htop as [?|?]; [done|lia]. }
  eexists. split; [done|]. cbn [bar_labels]. rewrite length_fmap.
  split; [simpl; lia|]. rewrite <-Htop. unfold most_common.
  rewrite length_take. lia.
Qed.

End entry.



(** ** The walker on a tree without links *)


